(** * InvoiceExtractor: field extraction and storage dispatch

    A shallow embedding of [extract_invoice_data] and [store_in_mongo] of
    [InvoiceExtractor.py].

    Python text is a sequence of Unicode code points, so a [str] is a
    [list N].  The four regular expressions of [extract_invoice_data] are
    written as syntax trees and run by a backtracking matcher that follows
    the [re] module: leftmost match, greedy repeats, group 1 recovered by
    slicing the text between its two marks.  The MongoDB collections are
    lists of documents in insertion order, threaded through a state and
    exception monad together with a log of the calls made. *)

From Stdlib Require Import List NArith Bool String Ascii Lia Arith.
Import ListNotations.
Local Open Scope N_scope.

(** ** Text *)

Definition str := list N.

Fixpoint str_eqb (a b : str) : bool :=
  match a, b with
  | [], [] => true
  | x :: a', y :: b' => (x =? y) && str_eqb a' b'
  | _, _ => false
  end.

(** Decoding of the UTF-8 bytes of a literal of this file into code points,
    so that literals read as they do in the Python source. *)
Fixpoint utf8_decode (bs : list N) : str :=
  match bs with
  | [] => []
  | b0 :: r0 =>
    if b0 <? 128 then b0 :: utf8_decode r0
    else if b0 <? 224 then
      match r0 with
      | b1 :: r1 => ((b0 - 192) * 64 + (b1 - 128)) :: utf8_decode r1
      | _ => []
      end
    else if b0 <? 240 then
      match r0 with
      | b1 :: b2 :: r2 =>
        ((b0 - 224) * 4096 + (b1 - 128) * 64 + (b2 - 128)) :: utf8_decode r2
      | _ => []
      end
    else
      match r0 with
      | b1 :: b2 :: b3 :: r3 =>
        ((b0 - 240) * 262144 + (b1 - 128) * 4096 + (b2 - 128) * 64 + (b3 - 128))
          :: utf8_decode r3
      | _ => []
      end
  end.

Definition py (s : string) : str :=
  utf8_decode (map N_of_ascii (list_ascii_of_string s)).

Definition chr (a : ascii) : N := N_of_ascii a.

(** The sentinel of an unmatched field. *)
Definition Unknown : str := py "Unknown".

(** ** Character classes of [re] on [str] patterns *)

Definition in_range (lo hi c : N) : bool := (lo <=? c) && (c <=? hi).

Definition in_ranges (rs : list (N * N)) (c : N) : bool :=
  existsb (fun r => in_range (fst r) (snd r) c) rs.

(** [\s]: the code points for which [str.isspace] holds. *)
Definition unicode_space : list (N * N) :=
  [(9, 13); (28, 32); (133, 133); (160, 160); (5760, 5760); (8192, 8202);
   (8232, 8233); (8239, 8239); (8287, 8287); (12288, 12288)].

(** [\d]: the decimal digits of the Unicode database (category Nd,
    version 14.0 as shipped with CPython 3.11). *)
Definition unicode_decimal : list (N * N) :=
  [(48, 57); (1632, 1641); (1776, 1785); (1984, 1993); (2406, 2415);
   (2534, 2543); (2662, 2671); (2790, 2799); (2918, 2927); (3046, 3055);
   (3174, 3183); (3302, 3311); (3430, 3439); (3558, 3567); (3664, 3673);
   (3792, 3801); (3872, 3881); (4160, 4169); (4240, 4249); (6112, 6121);
   (6160, 6169); (6470, 6479); (6608, 6617); (6784, 6793); (6800, 6809);
   (6992, 7001); (7088, 7097); (7232, 7241); (7248, 7257); (42528, 42537);
   (43216, 43225); (43264, 43273); (43472, 43481); (43504, 43513);
   (43600, 43609); (44016, 44025); (65296, 65305); (66720, 66729);
   (68912, 68921); (69734, 69743); (69872, 69881); (69942, 69951);
   (70096, 70105); (70384, 70393); (70736, 70745); (70864, 70873);
   (71248, 71257); (71360, 71369); (71472, 71481); (71904, 71913);
   (72016, 72025); (72784, 72793); (73040, 73049); (73120, 73129);
   (92768, 92777); (92864, 92873); (93008, 93017); (120782, 120831);
   (123200, 123209); (123632, 123641); (125264, 125273); (130032, 130041)].

Definition is_space (c : N) : bool := in_ranges unicode_space c.
Definition is_decimal (c : N) : bool := in_ranges unicode_decimal c.

(** Case folding under [re.IGNORECASE], as far as patterns made of ASCII
    characters can tell: besides the ASCII capitals, U+0130 and U+0131 fold
    with [i], U+017F with [s] and U+212A with [k]; no other code point
    folds to an ASCII letter. *)
Definition fold_case (c : N) : N :=
  if in_range 65 90 c then c + 32
  else if (c =? 304) || (c =? 305) then 105
  else if c =? 383 then 115
  else if c =? 8490 then 107
  else c.

Definition to_upper (c : N) : N := if in_range 97 122 c then c - 32 else c.

(** ** Regular expressions *)

(** A member of a character set. *)
Inductive item : Type :=
  | Chr (c : N)            (* a literal character *)
  | Rng (lo hi : N)        (* lo-hi *)
  | CatDigit               (* \d *)
  | CatSpace.              (* \s *)

(** The nodes the four patterns are made of; a pattern is a sequence. *)
Inductive node : Type :=
  | Single (cs : list item)                         (* x or [...] *)
  | Repeat (lo : nat) (hi : option nat) (cs : list item)
                                                    (* greedy ?, *, +, {m,n} *)
  | WordBoundary                                    (* \b *)
  | GroupOpen                                       (* ( of group 1 *)
  | GroupClose.                                     (* ) of group 1 *)

Definition pattern := list node.

Record Match : Type := mkMatch {
  m_end : nat;
  g_start : option nat;
  g_end : option nat
}.

Definition lit (a : ascii) : node := Single [Chr (chr a)].

Definition lits (s : string) : pattern :=
  map lit (list_ascii_of_string s).

Definition digit : list item := [CatDigit].

Definition euro : N := 8364.

(** r"([A-Z]{3,5}\d{6,8})", re.IGNORECASE *)
Definition invoice_number_re : pattern :=
  [GroupOpen; Repeat 3%nat (Some 5%nat) [Rng (chr "A") (chr "Z")];
   Repeat 6%nat (Some 8%nat) digit; GroupClose].

(** r"€\s?([\d,]+\.\d{2})" *)
Definition amount_re : pattern :=
  [Single [Chr euro]; Repeat 0%nat (Some 1%nat) [CatSpace]; GroupOpen;
   Repeat 1%nat None [CatDigit; Chr (chr ",")]; lit "."; Repeat 2%nat (Some 2%nat) digit;
   GroupClose].

(** r"Due Date[:\s]*(\d{2}/\d{2}/\d{4})", re.IGNORECASE *)
Definition due_date_re : pattern :=
  lits "Due Date" ++
  [Repeat 0%nat None [Chr (chr ":"); CatSpace]; GroupOpen;
   Repeat 2%nat (Some 2%nat) digit; lit "/"; Repeat 2%nat (Some 2%nat) digit; lit "/";
   Repeat 4%nat (Some 4%nat) digit; GroupClose].

(** r"\bPaid\b", re.IGNORECASE *)
Definition paid_re : pattern :=
  [WordBoundary] ++ lits "Paid" ++ [WordBoundary].

(** ** Exceptions *)

Inductive exn : Type :=
  | AttributeError          (* [.group] taken of [None] *)
  | LookupFailure.          (* the database did not answer a [find_one] *)

Inductive result (A : Type) : Type :=
  | Ok (a : A)
  | Raise (e : exn).
Arguments Ok {A} a.
Arguments Raise {A} e.

(** ** The documents *)

Record InvoiceDetails : Type := mkDetails {
  invoice_number : str;
  amount : str;
  due_date : str;
  payment_status : str
}.

Section InvoiceExtractor.

(** [\w] is an alphanumeric code point or the underscore.  Which code points
    beyond ASCII are alphanumeric is a table of the Unicode database of
    several hundred ranges, which is not part of the repository: it is a
    parameter. *)
Variable unicode_isalnum : N -> bool.

Definition is_word (c : N) : bool :=
  if c <? 128
  then in_range 48 57 c || in_range 65 90 c || in_range 97 122 c || (c =? 95)
  else unicode_isalnum c.

Definition word_at (c : option N) : bool :=
  match c with
  | Some x => is_word x
  | None => false
  end.

(** ** The matcher *)

Definition item_matches (ignorecase : bool) (c : N) (it : item) : bool :=
  match it with
  | Chr x => if ignorecase then fold_case x =? fold_case c else x =? c
  | Rng lo hi =>
    in_range lo hi c ||
    (ignorecase &&
     (in_range lo hi (fold_case c) || in_range lo hi (to_upper (fold_case c))))
  | CatDigit => is_decimal c
  | CatSpace => is_space c
  end.

Definition set_matches (ignorecase : bool) (cs : list item) (c : N) : bool :=
  existsb (item_matches ignorecase c) cs.

Definition orelse {A} (a b : option A) : option A :=
  match a with
  | Some _ => a
  | None => b
  end.

(** A greedy repeat of a one-character set: as many characters as the
    bounds allow are taken first, and one is given back at a time while
    the rest of the pattern, [cont], fails. *)
Fixpoint repeat_one (ignorecase : bool) (cs : list item) (lo : nat)
    (hi : option nat) (cont : nat -> option N -> str -> option Match)
    (pos : nat) (prev : option N) (s : str) {struct s} : option Match :=
  let stop := match lo with O => cont pos prev s | S _ => None end in
  match hi with
  | Some O => stop
  | _ =>
    match s with
    | c :: s' =>
      if set_matches ignorecase cs c
      then orelse (repeat_one ignorecase cs (pred lo) (option_map pred hi)
                     cont (S pos) (Some c) s')
                  stop
      else stop
    | [] => stop
    end
  end.

(** [run p pos prev s gs ge] matches [p] at position [pos], where [prev] is
    the character before it and [s] the text from it on. *)
Fixpoint run (ignorecase : bool) (p : pattern) (pos : nat) (prev : option N)
    (s : str) (gs ge : option nat) {struct p} : option Match :=
  match p with
  | [] => Some (mkMatch pos gs ge)
  | Single cs :: p' =>
    match s with
    | c :: s' =>
      if set_matches ignorecase cs c
      then run ignorecase p' (S pos) (Some c) s' gs ge
      else None
    | [] => None
    end
  | Repeat lo hi cs :: p' =>
    repeat_one ignorecase cs lo hi
      (fun pos' prev' s' => run ignorecase p' pos' prev' s' gs ge) pos prev s
  | WordBoundary :: p' =>
    if xorb (word_at prev) (word_at (hd_error s))
    then run ignorecase p' pos prev s gs ge
    else None
  | GroupOpen :: p' => run ignorecase p' pos prev s (Some pos) ge
  | GroupClose :: p' => run ignorecase p' pos prev s gs (Some pos)
  end.

(** [re.search]: the match at the leftmost position that has one. *)
Fixpoint search_from (ignorecase : bool) (p : pattern) (pos : nat)
    (prev : option N) (s : str) {struct s} : option Match :=
  match run ignorecase p pos prev s None None with
  | Some m => Some m
  | None =>
    match s with
    | [] => None
    | c :: s' => search_from ignorecase p (S pos) (Some c) s'
    end
  end.

Definition re_search (p : pattern) (text : str) (ignorecase : bool)
  : option Match :=
  search_from ignorecase p 0%nat None text.

Definition slice (text : str) (a b : nat) : str :=
  firstn (b - a) (skipn a text).

(** [m.group(1)]; on [None] the attribute lookup raises. *)
Definition group1 (m : option Match) (text : str) : result str :=
  match m with
  | None => Raise AttributeError
  | Some m =>
    match g_start m, g_end m with
    | Some a, Some b => Ok (slice text a b)
    | _, _ => Raise AttributeError
    end
  end.

Definition truthy {A} (o : option A) : bool :=
  match o with
  | Some _ => true
  | None => false
  end.

Definition bind {A B} (r : result A) (k : A -> result B) : result B :=
  match r with
  | Ok a => k a
  | Raise e => Raise e
  end.

Local Notation "x <- r ;; k" := (bind r (fun x => k))
  (at level 61, r at next level, right associativity).

(** ** [extract_invoice_data] *)

Definition extract_invoice_data (text : str) : result InvoiceDetails :=
  number <- (if truthy (re_search invoice_number_re text true)
             then group1 (re_search invoice_number_re text true) text
             else Ok Unknown) ;;
  amt <- (if truthy (re_search amount_re text false)
          then group1 (re_search amount_re text false) text
          else Ok Unknown) ;;
  due <- (if truthy (re_search due_date_re text true)
          then group1 (re_search due_date_re text true) text
          else Ok Unknown) ;;
  Ok (mkDetails number amt due
        (if truthy (re_search paid_re text true)
         then py "Paid" else py "Unpaid")).

(** ** The database *)

(** [email_data] after [email_data.update(invoice_details)]: the metadata of
    the message and the four extracted fields. *)
Record document : Type := mkDocument {
  email_uid : str;
  sender : str;
  subject : str;
  attachments : list str;
  details : InvoiceDetails
}.

(** The keys a query can name. *)
Inductive key : Type :=
  | k_email_uid | k_sender | k_subject
  | k_invoice_number | k_amount | k_due_date | k_payment_status.

Definition field (k : key) (d : document) : str :=
  match k with
  | k_email_uid => email_uid d
  | k_sender => sender d
  | k_subject => subject d
  | k_invoice_number => invoice_number (details d)
  | k_amount => amount (details d)
  | k_due_date => due_date (details d)
  | k_payment_status => payment_status (details d)
  end.

(** A query document [{key: value, ...}]: every key named must hold the
    value given. *)
Definition query := list (key * str).

Definition satisfies (q : query) (d : document) : bool :=
  forallb (fun kv => str_eqb (field (fst kv) d) (snd kv)) q.

(** The two collections [connect_to_mongo] returns handles of. *)
Inductive collection_name : Type :=
  | Invoices
  | RecurringInvoices.

(** The world [store_in_mongo] runs in: the documents of both collections in
    insertion order, and for each coming [find_one] whether the server fails
    to answer it ([true]: the call raises; past the end of the list every
    call is answered). *)
Record world : Type := mkWorld {
  invoices : list document;
  recurring_invoices : list document;
  outages : list bool
}.

Definition documents (h : collection_name) (w : world) : list document :=
  match h with
  | Invoices => invoices w
  | RecurringInvoices => recurring_invoices w
  end.

(** What a run does that can be seen from outside. *)
Inductive event : Type :=
  | FindOne (h : collection_name) (q : query)
  | InsertOne (h : collection_name) (d : document)
  | PrintLine (line : str).

(** State, exception and log. *)
Definition M (A : Type) : Type := world -> result A * world * list event.

Definition ret {A} (a : A) : M A := fun w => (Ok a, w, []).

Definition bindM {A B} (c : M A) (k : A -> M B) : M B :=
  fun w =>
    match c w with
    | (Ok a, w1, l1) =>
      match k a w1 with
      | (r, w2, l2) => (r, w2, l1 ++ l2)
      end
    | (Raise e, w1, l1) => (Raise e, w1, l1)
    end.

Local Notation "x <~ c ;; k" := (bindM c (fun x => k))
  (at level 61, c at next level, right associativity).
Local Notation "c ;;; k" := (bindM c (fun _ => k))
  (at level 61, right associativity).

(** [collection.find_one(q)]: the first document that satisfies [q], or
    [None]; raises when the server does not answer. *)
Definition find_one (h : collection_name) (q : query) : M (option document) :=
  fun w =>
    let w' := mkWorld (invoices w) (recurring_invoices w) (tl (outages w)) in
    match outages w with
    | true :: _ => (Raise LookupFailure, w', [FindOne h q])
    | _ => (Ok (find (satisfies q) (documents h w)), w', [FindOne h q])
    end.

(** [collection.insert_one(d)] *)
Definition insert_one (h : collection_name) (d : document) : M unit :=
  fun w =>
    (Ok tt,
     match h with
     | Invoices =>
       mkWorld (invoices w ++ [d]) (recurring_invoices w) (outages w)
     | RecurringInvoices =>
       mkWorld (invoices w) (recurring_invoices w ++ [d]) (outages w)
     end,
     [InsertOne h d]).

Definition print (line : str) : M unit := fun w => (Ok tt, w, [PrintLine line]).

(** ** [store_in_mongo] *)

Definition store_in_mongo (collection recurring_collection : collection_name)
    (extracted_data : document) : M unit :=
  dup <~ find_one collection
           [(k_email_uid, email_uid extracted_data);
            (k_sender, sender extracted_data);
            (k_invoice_number, invoice_number (details extracted_data))] ;;
  if truthy dup then
    print (py "Duplicate invoice detected. Skipping storage.") ;;;
    ret tt
  else
    same <~ find_one collection
              [(k_sender, sender extracted_data);
               (k_amount, amount (details extracted_data))] ;;
    if truthy same
       && negb (str_eqb (due_date (details extracted_data)) Unknown)
    then
      insert_one recurring_collection extracted_data ;;;
      print (py "Stored in RecurringInvoices.")
    else
      insert_one collection extracted_data ;;;
      print (py "Stored in Invoices.").

(** ** Dispositions *)

(** [store_in_mongo] returns [None] whatever it does; the disposition it
    reached is the line it prints. *)
Inductive Disposition : Type :=
  | Duplicate
  | Recurring
  | New.

Definition announcement (d : Disposition) : str :=
  match d with
  | Duplicate => py "Duplicate invoice detected. Skipping storage."
  | Recurring => py "Stored in RecurringInvoices."
  | New => py "Stored in Invoices."
  end.

Definition printed (l : list event) : list str :=
  flat_map (fun e => match e with PrintLine s => [s] | _ => [] end) l.

Definition lookups (l : list event) : list (collection_name * query) :=
  flat_map (fun e => match e with FindOne h q => [(h, q)] | _ => [] end) l.

Definition insertions (l : list event) : list (collection_name * document) :=
  flat_map (fun e => match e with InsertOne h d => [(h, d)] | _ => [] end) l.

Definition disposition_of (l : list event) : option Disposition :=
  match printed l with
  | [s] =>
    if str_eqb s (announcement Duplicate) then Some Duplicate
    else if str_eqb s (announcement Recurring) then Some Recurring
    else if str_eqb s (announcement New) then Some New
    else None
  | _ => None
  end.

(** One call of [store_in_mongo] with the handles [main] passes. *)
Definition dispatch (w : world) (d : document)
  : result unit * world * list event :=
  store_in_mongo Invoices RecurringInvoices d w.

Definition classify (w : world) (d : document) : option Disposition :=
  disposition_of (snd (dispatch w d)).

Definition world_after (w : world) (d : document) : world :=
  snd (fst (dispatch w d)).

Definition outcome (w : world) (d : document) : result unit :=
  fst (fst (dispatch w d)).

(** What the claims speak of: a stored record agreeing with the candidate on
    the identity key, and on the recurrence key. *)
Definition identity_match (d r : document) : Prop :=
  email_uid r = email_uid d /\ sender r = sender d /\
  invoice_number (details r) = invoice_number (details d).

Definition recurrence_match (d r : document) : Prop :=
  sender r = sender d /\ amount (details r) = amount (details d).

Definition has_identity_match (w : world) (d : document) : Prop :=
  exists r, In r (invoices w) /\ identity_match d r.

Definition has_recurrence_match (w : world) (d : document) : Prop :=
  exists r, In r (invoices w) /\ recurrence_match d r.

(** The server answers the next [n] lookups. *)
Definition answered (n : nat) (w : world) : Prop :=
  existsb (fun b => b) (firstn n (outages w)) = false.

Definition log (w : world) (d : document) : list event := snd (dispatch w d).

(** Sample data. *)
Definition ascii_only : N -> bool := fun _ => false.

Definition sample_details : InvoiceDetails :=
  mkDetails (py "ABC123456") (py "150.00") (py "01/05/2025") (py "Unpaid").

Definition sample : document :=
  mkDocument (py "b'1'") (py "billing@example.com") (py "Invoice")
    [py "Invoices/invoice.pdf"] sample_details.

Definition sample_next_month : document :=
  mkDocument (py "b'2'") (py "billing@example.com") (py "Invoice")
    [py "Invoices/invoice.pdf"]
    (mkDetails (py "ABC123457") (py "150.00") (py "01/06/2025") (py "Unpaid")).

Definition sample_undated : document :=
  mkDocument (py "b'3'") (py "billing@example.com") (py "Invoice")
    [py "Invoices/invoice.pdf"]
    (mkDetails (py "ABC123458") (py "150.00") Unknown (py "Unpaid")).

Definition empty_world : world := mkWorld [] [] [].
Definition one_invoice : world := mkWorld [sample] [] [].

(** With its lookups answered, the call reaches the disposition that the
    documents of the primary collection and the candidate fix. *)
Definition decision (docs : list document) (d : document) : Disposition :=
  if existsb (satisfies [(k_email_uid, email_uid d); (k_sender, sender d);
                         (k_invoice_number, invoice_number (details d))]) docs
  then Duplicate
  else if existsb (satisfies [(k_sender, sender d);
                              (k_amount, amount (details d))]) docs
          && negb (str_eqb (due_date (details d)) Unknown)
       then Recurring
       else New.

(** ** What the claims on extraction speak of *)

(** The character before the position reached after reading [l]. *)
Definition last_char (prev : option N) (l : str) : option N :=
  fold_left (fun _ c => Some c) l prev.

(** The value of a field: group 1 of the match, or [Unknown]. *)
Definition field_of (text : str) (m : option Match) (v : str) : Prop :=
  match m with
  | None => v = Unknown
  | Some m =>
    exists a b, g_start m = Some a /\ g_end m = Some b /\ v = slice text a b
  end.

(** The code points of [unicode_space], one by one. *)
Definition space_chars : list N :=
  [9; 10; 11; 12; 13; 28; 29; 30; 31; 32; 133; 160; 5760;
   8192; 8193; 8194; 8195; 8196; 8197; 8198; 8199; 8200; 8201; 8202;
   8232; 8233; 8239; 8287; 12288].

(** ASCII case folding. *)
Definition ascii_fold (c : N) : N := if in_range 65 90 c then c + 32 else c.

(** The same ASCII letter, in upper or lower case. *)
Definition same_letter (a b : N) : Prop := ascii_fold a = ascii_fold b.

(** The same letter as [re.IGNORECASE] has it. *)
Definition same_letter_ignorecase (a b : N) : Prop :=
  fold_case a = fold_case b.

(** [word] stands in the text as a word of its own, up to [same]: no word
    character before it and none after it. *)
Definition standalone_after (prev : option N) (same : N -> N -> Prop)
    (word text : str) : Prop :=
  exists pre x post,
    text = pre ++ x ++ post /\ Forall2 same word x /\
    word_at (last_char prev pre) = false /\
    word_at (hd_error post) = false.

Definition standalone := standalone_after None.

(** A member of the set [[\d,]]. *)
Definition digit_or_comma (c : N) : bool := is_decimal c || (c =? 44).

(** The text [s] that follows a euro sign starts with an amount [n]: at most
    one white space character, a run of digits and commas, a dot and two
    digits. *)
Definition amount_after (s n : str) : Prop :=
  exists ws r d1 d2 post,
    s = ws ++ n ++ post /\ n = r ++ [46; d1; d2] /\
    (ws = [] \/ exists w, ws = [w] /\ is_space w = true) /\
    r <> [] /\ forallb digit_or_comma r = true /\
    is_decimal d1 = true /\ is_decimal d2 = true.

(** [n] is the amount after the first euro sign of the text that has one. *)
Definition first_amount (text n : str) : Prop :=
  exists pre s,
    text = pre ++ euro :: s /\ amount_after s n /\
    forall pre1 s1, pre = pre1 ++ euro :: s1 ->
      forall n1, ~ amount_after (s1 ++ euro :: s) n1.

(** A decimal with comma-grouped thousands: digits(,digits)*.dd *)
Definition grouped_decimal (n : str) : Prop :=
  exists g gs d1 d2,
    n = g ++ List.concat (map (fun x => 44 :: x) gs) ++ [46; d1; d2] /\
    Forall (fun x => x <> [] /\ forallb is_decimal x = true) (g :: gs) /\
    is_decimal d1 = true /\ is_decimal d2 = true.

(** ** Further vocabulary *)


(** What [[A-Z]] takes under [re.IGNORECASE]. *)
Definition letter (c : N) : bool :=
  in_range 65 90 c || in_range 97 122 c ||
  (c =? 304) || (c =? 305) || (c =? 383) || (c =? 8490).

(** A member of the set [[:\s]]. *)
Definition colon_or_space (c : N) : bool := (c =? 58) || is_space c.

(** [n] is what [at_] finds at the first place of the text where it finds
    something: [at_ s n] reads "[n] is found at the head of [s]". *)
Definition first_at (at_ : str -> str -> Prop) (text n : str) : Prop :=
  exists pre s,
    text = pre ++ s /\ at_ s n /\
    forall pre1 s1, pre = pre1 ++ s1 -> s1 <> [] ->
      forall n1, ~ at_ (s1 ++ s) n1.

(** [s] starts with the invoice number [n]: three to five letters, then
    six to eight digits, and as many of the digits that follow as the eight
    allow. *)
Definition invoice_number_at (s n : str) : Prop :=
  exists ls ds post,
    s = n ++ post /\ n = ls ++ ds /\
    forallb letter ls = true /\
    (3 <= List.length ls <= 5)%nat /\
    forallb is_decimal ds = true /\
    (6 <= List.length ds <= 8)%nat /\
    (List.length ds = 8%nat \/
     match post with [] => True | c :: _ => is_decimal c = false end).

(** [s] starts with the label Due Date in upper or lower case letters, any
    number of colons and white space characters, and the date [n]: two
    digits, a slash, two digits, a slash, four digits. *)
Definition due_date_at (s n : str) : Prop :=
  exists label seps d1 d2 d3 d4 d5 d6 d7 d8 post,
    s = label ++ seps ++ n ++ post /\
    Forall2 same_letter (py "Due Date") label /\
    forallb colon_or_space seps = true /\
    n = [d1; d2; 47; d3; d4; 47; d5; d6; d7; d8] /\
    forallb is_decimal [d1; d2; d3; d4; d5; d6; d7; d8] = true.

(** ** The rest of the program: attachments, recognised text and the loop
    of [main] *)

Definition bytes := list N.

(** [str.lower], as far as a comparison with ASCII text can tell: the ASCII
    capitals become small letters, U+0130 becomes i followed by U+0307 and
    U+212A becomes k; every other code point is left in place, where Python
    may put another code point that is not ASCII either. *)
Definition lower_char (c : N) : str :=
  if in_range 65 90 c then [c + 32]
  else if c =? 304 then [105; 775]
  else if c =? 8490 then [107]
  else [c].

Definition lower (s : str) : str := flat_map lower_char s.

(** [s.endswith(suffix)] *)
Definition endswith (s suffix : str) : bool :=
  (List.length suffix <=? List.length s)%nat &&
  str_eqb (skipn (List.length s - List.length suffix) s) suffix.

(** [s.endswith((suffix, ...))] *)
Definition endswith_any (s : str) (suffixes : list str) : bool :=
  existsb (endswith s) suffixes.

(** [os.path.join(a, b)] of [posixpath] *)
Definition os_path_join (a b : str) : str :=
  match b with
  | 47 :: _ => b
  | _ =>
    match a with
    | [] => a ++ b
    | _ => if endswith a [47] then a ++ b else a ++ 47 :: b
    end
  end.

(** [sep.join(parts)] *)
Fixpoint join (sep : str) (parts : list str) : str :=
  match parts with
  | [] => []
  | [t] => t
  | t :: rest => t ++ sep ++ join sep rest
  end.

(** [s.strip()] *)
Fixpoint lstrip (s : str) : str :=
  match s with
  | c :: s' => if is_space c then lstrip s' else s
  | [] => []
  end.

Definition strip (s : str) : str := rev (lstrip (rev (lstrip s))).

(** A Python [dict] with [str] keys: the keys in the order of their first
    insertion, a later assignment to a key replacing its value in place. *)
Definition dict (V : Type) : Type := list (str * V).

Fixpoint dict_set {V} (k : str) (v : V) (d : dict V) : dict V :=
  match d with
  | [] => [(k, v)]
  | (k', v') :: d' =>
    if str_eqb k' k then (k', v) :: d' else (k', v') :: dict_set k v d'
  end.

Fixpoint dict_get {V} (k : str) (d : dict V) : option V :=
  match d with
  | [] => None
  | (k', v') :: d' => if str_eqb k' k then Some v' else dict_get k d'
  end.

Definition values {V} (d : dict V) : list V := map snd d.

Definition keys {V} (d : dict V) : list str := map fst d.

(** The files on disk, by path. *)
Definition filesystem : Type := dict bytes.

(** What [pytesseract] reads: on each page of the PDF with these bytes, and
    on the image with these bytes.  Recognition is taken to succeed on every
    file that can be read. *)
Variable pdf_page_texts : bytes -> list str.
Variable image_text : bytes -> str.

(** Whether [open(path, "wb")] succeeds. *)
Variable can_write : str -> bool.

(** A part of a message as [msg.walk()] yields it: its Content-Disposition
    header, [get_filename()] and [get_payload(decode=True)], which is [None]
    for a multipart part. *)
Record part : Type := mkPart {
  content_disposition : option str;
  get_filename : option str;
  get_payload : option bytes
}.

(** What [mail.fetch] and the parsing of the message give: the status of
    the fetch, the From header, the Subject once decoded ([None] when the
    decoding raises) and the parts. *)
Record fetched : Type := mkFetched {
  fetch_result : str;
  header_from : option str;
  decoded_subject : option str;
  walk : list part
}.

(** The dictionary [process_email] returns. *)
Record metadata : Type := mkMetadata {
  md_email_uid : str;
  md_sender : str;
  md_subject : str;
  md_attachments : list str
}.

(** Truth of a header or file name: present and not empty. *)
Definition nonempty (o : option str) : bool :=
  match o with
  | Some (_ :: _) => true
  | _ => false
  end.

Definition invoice_extensions : list str := [py ".pdf"; py ".jpg"; py ".png"].

(** The loop of [process_email] over the parts: the paths saved so far and
    the files; [None] for the paths when a write raised. *)
Fixpoint save_attachments (parts : list part) (save_folder : str)
    (attachments : list str) (fs : filesystem)
  : option (list str) * filesystem :=
  match parts with
  | [] => (Some attachments, fs)
  | p :: rest =>
    if nonempty (content_disposition p) then
      match get_filename p with
      | Some filename =>
        if nonempty (Some filename)
           && endswith_any (lower filename) invoice_extensions
        then
          let filepath := os_path_join save_folder filename in
          if can_write filepath then
            match get_payload p with
            | Some content =>
              save_attachments rest save_folder (attachments ++ [filepath])
                (dict_set filepath content fs)
            | None => (None, dict_set filepath [] fs)
            end
          else (None, fs)
        else save_attachments rest save_folder attachments fs
      | None => save_attachments rest save_folder attachments fs
      end
    else save_attachments rest save_folder attachments fs
  end.

(** [process_email(mail, email_uid, save_folder)], given [str(email_uid)]
    and what the fetch gives ([None] when the making of the folder, the
    fetch or the parsing raises).  Every exception ends the call with
    [None]; the lines it prints are left out. *)
Definition process_email (uid : str) (fetch : option fetched)
    (save_folder : str) (fs : filesystem) : option metadata * filesystem :=
  match fetch with
  | None => (None, fs)
  | Some msg =>
    if negb (str_eqb (fetch_result msg) (py "OK")) then (None, fs)
    else
      let sender :=
        match header_from msg with Some v => v | None => py "Unknown" end in
      match decoded_subject msg with
      | None => (None, fs)
      | Some subject =>
        match save_attachments (walk msg) save_folder [] fs with
        | (Some (a :: attachments), fs') =>
          (Some (mkMetadata uid sender subject (a :: attachments)), fs')
        | (_, fs') => (None, fs')
        end
      end
  end.

(** [extract_text_from_attachments(attachments)]; [None] when a file cannot
    be read and the call raises. *)
Fixpoint extract_text_from_attachments (attachments : list str)
    (fs : filesystem) (extracted_texts : dict str) : option (dict str) :=
  match attachments with
  | [] => Some extracted_texts
  | file :: rest =>
    if endswith (lower file) (py ".pdf") then
      match dict_get file fs with
      | Some content =>
        extract_text_from_attachments rest fs
          (dict_set file (join [10] (map strip (pdf_page_texts content)))
             extracted_texts)
      | None => None
      end
    else if endswith_any (lower file) [py ".jpg"; py ".png"] then
      match dict_get file fs with
      | Some content =>
        extract_text_from_attachments rest fs
          (dict_set file (image_text content) extracted_texts)
      | None => None
      end
    else extract_text_from_attachments rest fs extracted_texts
  end.

(** [email_data.update(invoice_details)] *)
Definition update (email_data : metadata) (invoice_details : InvoiceDetails)
  : document :=
  mkDocument (md_email_uid email_data) (md_sender email_data)
    (md_subject email_data) (md_attachments email_data) invoice_details.

(** What stops [main]: an exception out of the extraction or the storage,
    or a file that cannot be read. *)
Inductive interruption : Type :=
  | Raised (e : exn)
  | Unreadable.

(** The state of the loop of [main]: the records reported so far, the
    files, the database and what was done to it. *)
Record progress : Type := mkProgress {
  extracted_invoices : list document;
  files : filesystem;
  database : world;
  events : list event
}.

(** The loop of [main] over the messages found, each with [str] of its UID
    and what its fetch gives. *)
Fixpoint main_loop (inbox : list (str * option fetched)) (st : progress)
  : option interruption * progress :=
  match inbox with
  | [] => (None, st)
  | (uid, fetch) :: rest =>
    match process_email uid fetch (py "Invoices") (files st) with
    | (None, fs) =>
      main_loop rest
        (mkProgress (extracted_invoices st) fs (database st) (events st))
    | (Some email_data, fs) =>
      match extract_text_from_attachments (md_attachments email_data) fs []
      with
      | None =>
        (Some Unreadable,
         mkProgress (extracted_invoices st) fs (database st) (events st))
      | Some extracted_texts =>
        match extract_invoice_data (join (py " ") (values extracted_texts))
        with
        | Raise e =>
          (Some (Raised e),
           mkProgress (extracted_invoices st) fs (database st) (events st))
        | Ok invoice_details =>
          let email_data' := update email_data invoice_details in
          match store_in_mongo Invoices RecurringInvoices email_data'
                  (database st) with
          | (Raise e, w, l) =>
            (Some (Raised e),
             mkProgress (extracted_invoices st) fs w (events st ++ l))
          | (Ok _, w, l) =>
            main_loop rest
              (mkProgress (extracted_invoices st ++ [email_data']) fs w
                 (events st ++ l))
          end
        end
      end
    end
  end.




(** The path a part is saved under, when it is one that [process_email]
    saves. *)
Definition saved_as (folder : str) (p : part) : option str :=
  if nonempty (content_disposition p) then
    match get_filename p with
    | Some filename =>
      if nonempty (Some filename)
         && endswith_any (lower filename) invoice_extensions
      then Some (os_path_join folder filename)
      else None
    | None => None
    end
  else None.

Definition saved_paths (folder : str) (parts : list part) : list str :=
  flat_map (fun p => match saved_as folder p with
                     | Some path => [path]
                     | None => []
                     end) parts.

(** Whether every part that is to be saved can be: its file opens and it
    has a payload. *)
Definition all_saved (folder : str) (parts : list part) : bool :=
  forallb (fun p => match saved_as folder p with
                    | Some path =>
                      can_write path && truthy (get_payload p)
                    | None => true
                    end) parts.

(** One list is the other with something appended. *)
Definition extends {A} (l l' : list A) : Prop := exists added, l' = l ++ added.

(** What one message comes to before the database is asked: nothing when
    [process_email] returns [None], else an interruption or the record to
    store. *)
Definition message_record (uid : str) (fetch : option fetched)
    (fs : filesystem) : option (interruption + document) * filesystem :=
  match process_email uid fetch (py "Invoices") fs with
  | (None, fs') => (None, fs')
  | (Some email_data, fs') =>
    match extract_text_from_attachments (md_attachments email_data) fs' []
    with
    | None => (Some (inl Unreadable), fs')
    | Some extracted_texts =>
      match extract_invoice_data (join (py " ") (values extracted_texts))
      with
      | Raise e => (Some (inl (Raised e)), fs')
      | Ok invoice_details =>
        (Some (inr (update email_data invoice_details)), fs')
      end
    end
  end.


(** The invoice number [extract_invoice_data] finds in a text. *)
Definition invoice_number_in (text : str) : str :=
  match extract_invoice_data text with
  | Ok f => invoice_number f
  | Raise _ => Unknown
  end.

(** The first value of the list that is not [Unknown]. *)
Definition first_known (l : list str) : str :=
  match filter (fun v => negb (str_eqb v Unknown)) l with
  | v :: _ => v
  | [] => Unknown
  end.

(** The payment status [extract_invoice_data] gives a text. *)
Definition payment_status_in (text : str) : str :=
  match extract_invoice_data text with
  | Ok f => payment_status f
  | Raise _ => py "Unpaid"
  end.











(** * Storage dispatch *)

Lemma str_eqb_eq (a b : str) : str_eqb a b = true <-> a = b.
Proof.
  revert b; induction a as [|x a IH]; intros [|y b]; simpl; try easy.
  rewrite andb_true_iff, N.eqb_eq, IH. split.
  - intros [-> ->]; reflexivity.
  - intros E; injection E; auto.
Qed.

Lemma str_eqb_neq (a b : str) : str_eqb a b = false <-> a <> b.
Proof.
  rewrite <- str_eqb_eq. destruct (str_eqb a b); split; congruence.
Qed.

Lemma truthy_find {A} (f : A -> bool) (l : list A) :
  truthy (find f l) = existsb f l.
Proof.
  induction l as [|x l IH]; simpl; [reflexivity|].
  destruct (f x); simpl; auto.
Qed.

Lemma identity_query (d r : document) :
  satisfies [(k_email_uid, email_uid d); (k_sender, sender d);
             (k_invoice_number, invoice_number (details d))] r = true
  <-> identity_match d r.
Proof.
  unfold satisfies, identity_match; simpl.
  rewrite !andb_true_iff, !str_eqb_eq. tauto.
Qed.

Lemma recurrence_query (d r : document) :
  satisfies [(k_sender, sender d); (k_amount, amount (details d))] r = true
  <-> recurrence_match d r.
Proof.
  unfold satisfies, recurrence_match; simpl.
  rewrite !andb_true_iff, !str_eqb_eq. tauto.
Qed.

Lemma identity_lookup (w : world) (d : document) :
  truthy (find (satisfies [(k_email_uid, email_uid d); (k_sender, sender d);
                           (k_invoice_number, invoice_number (details d))])
            (invoices w)) = true
  <-> has_identity_match w d.
Proof.
  rewrite truthy_find, existsb_exists. unfold has_identity_match.
  split; intros [r [Hin Hr]]; exists r; split; auto; now apply identity_query.
Qed.

Lemma recurrence_lookup (w : world) (d : document) :
  truthy (find (satisfies [(k_sender, sender d);
                           (k_amount, amount (details d))])
            (invoices w)) = true
  <-> has_recurrence_match w d.
Proof.
  rewrite truthy_find, existsb_exists. unfold has_recurrence_match.
  split; intros [r [Hin Hr]]; exists r; split; auto;
    now apply recurrence_query.
Qed.

Lemma disposition_of_announcement (l : list event) (d : Disposition) :
  printed l = [announcement d] -> disposition_of l = Some d.
Proof.
  unfold disposition_of. intros ->. destruct d; reflexivity.
Qed.

Lemma identity_lookup_false (w : world) (d : document) :
  truthy (find (satisfies [(k_email_uid, email_uid d); (k_sender, sender d);
                           (k_invoice_number, invoice_number (details d))])
            (invoices w)) = false
  <-> ~ has_identity_match w d.
Proof.
  rewrite <- identity_lookup. destruct (truthy _); split; congruence.
Qed.

Lemma recurrence_lookup_false (w : world) (d : document) :
  truthy (find (satisfies [(k_sender, sender d);
                           (k_amount, amount (details d))])
            (invoices w)) = false
  <-> ~ has_recurrence_match w d.
Proof.
  rewrite <- recurrence_lookup. destruct (truthy _); split; congruence.
Qed.

(** Runs [store_in_mongo] symbolically: one goal per path through it. *)
Ltac dispatch_paths w d :=
  unfold classify, outcome, world_after, log, dispatch, store_in_mongo,
    bindM, find_one, insert_one, print, answered in *;
  cbn [documents] in *;
  let Hout := fresh "Hout" in
  destruct (outages w) as [|[|] [|[|] ?]] eqn:Hout;
  cbn [tl firstn existsb orb outages invoices recurring_invoices] in *;
  try discriminate;
  let Hid := fresh "Hid" in
  destruct (truthy (find (satisfies
     [(k_email_uid, email_uid d); (k_sender, sender d);
      (k_invoice_number, invoice_number (details d))]) (invoices w))) eqn:Hid;
  [ apply identity_lookup in Hid | apply identity_lookup_false in Hid ];
  cbn [tl firstn existsb orb outages invoices recurring_invoices fst snd app]
    in *;
  try discriminate;
  let Hrec := fresh "Hrec" in
  let Hdue := fresh "Hdue" in
  try (destruct (truthy (find (satisfies
     [(k_sender, sender d); (k_amount, amount (details d))]) (invoices w)))
     eqn:Hrec;
  [ apply recurrence_lookup in Hrec | apply recurrence_lookup_false in Hrec ];
  destruct (str_eqb (due_date (details d)) Unknown) eqn:Hdue;
  [ apply str_eqb_eq in Hdue | apply str_eqb_neq in Hdue
  | apply str_eqb_eq in Hdue | apply str_eqb_neq in Hdue ];
  cbn [andb negb tl firstn existsb orb outages invoices recurring_invoices
       fst snd app] in *).

(** C1. Duplicate check takes precedence over the recurring rule: when the
    primary collection holds a record with the candidate's identity triple
    (and the server answers the lookup), the call reaches [Duplicate],
    whatever the candidate's sender, amount and due date. *)
Theorem duplicate_takes_precedence (w : world) (d : document) :
  answered 1 w -> has_identity_match w d -> classify w d = Some Duplicate.
Proof.
  intros Ha Hm.
  dispatch_paths w d; try contradiction; reflexivity.
Qed.

(** C2. The recurring rule requires a resolved due date.  With both lookups
    answered: a candidate whose due date is [Unknown] and that has no
    identity match is [New] and is appended to the primary collection, also
    when a stored record has its sender and amount; and [Recurring] is
    reached exactly when there is no identity match, there is a sender and
    amount match, and the due date is not [Unknown]. *)
Theorem recurring_needs_due_date (w : world) (d : document) :
  answered 2 w ->
  (due_date (details d) = Unknown -> ~ has_identity_match w d ->
   classify w d = Some New /\
   invoices (world_after w d) = invoices w ++ [d]) /\
  (classify w d = Some Recurring <->
   ~ has_identity_match w d /\ has_recurrence_match w d /\
   due_date (details d) <> Unknown).
Proof.
  intros Ha.
  dispatch_paths w d; (split; [intros; try contradiction; auto | ]);
    (split; [ intros E; try discriminate; auto | intros (?&?&?); try contradiction; auto ]).
Qed.

(** C7. A call that reaches [Duplicate] inserts nothing and leaves both
    collections as they were; one that reaches [Recurring] makes exactly one
    insertion, of the record, into the recurring collection, and one that
    reaches [New] exactly one, into the primary collection.  A call whose
    lookups are answered reaches one of the three. *)
Theorem one_insertion_or_none (w : world) (d : document) :
  match classify w d with
  | Some Duplicate =>
    insertions (log w d) = [] /\
    invoices (world_after w d) = invoices w /\
    recurring_invoices (world_after w d) = recurring_invoices w
  | Some Recurring =>
    insertions (log w d) = [(RecurringInvoices, d)] /\
    invoices (world_after w d) = invoices w /\
    recurring_invoices (world_after w d) = recurring_invoices w ++ [d]
  | Some New =>
    insertions (log w d) = [(Invoices, d)] /\
    invoices (world_after w d) = invoices w ++ [d] /\
    recurring_invoices (world_after w d) = recurring_invoices w
  | None => ~ answered 2 w
  end.
Proof.
  dispatch_paths w d; cbv [disposition_of printed flat_map app];
    repeat split; try reflexivity; cbn; congruence.
Qed.

Lemma classify_decision (w : world) (d : document) :
  answered 2 w -> classify w d = Some (decision (invoices w) d).
Proof.
  unfold classify, dispatch, store_in_mongo, bindM, find_one, insert_one,
    print, answered, decision.
  cbn [documents]. rewrite <- !truthy_find.
  destruct (outages w) as [|[|] [|[|] ?]];
    cbn [tl firstn existsb orb outages invoices recurring_invoices];
    try discriminate; intros _;
    destruct (truthy (find _ (invoices w)));
    cbn [tl outages invoices recurring_invoices fst snd app]; try reflexivity;
    destruct (truthy (find _ (invoices w)));
    destruct (str_eqb (due_date (details d)) Unknown); reflexivity.
Qed.

(** C8, as amended.  [store_in_mongo] makes one or two lookups, all of them
    on the primary collection; a lookup changes neither collection; with the
    lookups answered the disposition depends on the primary collection and
    the candidate alone; and the insertion is made by the same call, after
    its lookups: the call inserts nothing exactly when the disposition is
    [Duplicate] or a lookup failed. *)
Theorem decision_and_insertion_in_one_call (w : world) (d : document) :
  (List.length (lookups (log w d)) = 1%nat \/
   List.length (lookups (log w d)) = 2%nat) /\
  Forall (fun hq => fst hq = Invoices) (lookups (log w d)) /\
  (forall h q,
     invoices (snd (fst (find_one h q w))) = invoices w /\
     recurring_invoices (snd (fst (find_one h q w))) = recurring_invoices w) /\
  (forall w2, invoices w2 = invoices w -> answered 2 w -> answered 2 w2 ->
     classify w2 d = classify w d) /\
  (insertions (log w d) = [] <->
   classify w d = Some Duplicate \/ classify w d = None) /\
  (forall l1 h x l2, log w d = l1 ++ InsertOne h x :: l2 -> lookups l2 = []).
Proof.
  split; [|split; [|split; [|split; [|split]]]].
  - dispatch_paths w d; cbn; auto.
  - dispatch_paths w d; cbn; repeat constructor.
  - intros h q. unfold find_one. destruct (outages w) as [|[|] ?]; auto.
  - intros w2 E A1 A2.
    rewrite (classify_decision w d A1), (classify_decision w2 d A2), E.
    reflexivity.
  - dispatch_paths w d; cbv [disposition_of printed insertions flat_map app];
      split; intros E; try discriminate; auto;
      destruct E; try discriminate; try reflexivity.
  - intros l1 h x l2.
    dispatch_paths w d; intros E;
      destruct l1 as [|? [|? [|? [|? [|? ?]]]]]; cbn [app] in E;
      try discriminate; injection E; intros; subst; reflexivity.
Qed.

(** C9. A failed lookup comes out of the call as an exception: when one of
    the lookups the call makes falls on an outage, the call raises
    [LookupFailure], reaches no disposition, prints nothing, inserts nothing
    and leaves both collections as they were. *)
Theorem lookup_failure_propagates (w : world) (d : document) (i : nat) :
  (i < List.length (lookups (log w d)))%nat ->
  nth i (outages w) false = true ->
  outcome w d = Raise LookupFailure /\
  classify w d = None /\
  printed (log w d) = [] /\
  insertions (log w d) = [] /\
  invoices (world_after w d) = invoices w /\
  recurring_invoices (world_after w d) = recurring_invoices w.
Proof.
  intros Hi Hn.
  dispatch_paths w d; cbn in Hi;
    try (destruct i as [|[|i]]; cbn in Hn; try discriminate; try lia;
         try (destruct i; discriminate));
    repeat split; reflexivity.
Qed.

(** * The matcher *)

Lemma last_char_app (prev : option N) (a b : str) :
  last_char prev (a ++ b) = last_char (last_char prev a) b.
Proof. apply fold_left_app. Qed.

(** Whatever a repeat returns was returned by the rest of the pattern. *)
Lemma repeat_one_cont (P : Match -> Prop) ic cs cont :
  (forall pos prev s m, cont pos prev s = Some m -> P m) ->
  forall s lo hi pos prev m,
    repeat_one ic cs lo hi cont pos prev s = Some m -> P m.
Proof.
  intros Hc. induction s as [|c s IH]; intros lo hi pos prev m.
  - simpl. destruct hi as [[|h]|]; destruct lo; try discriminate;
      apply Hc.
  - simpl.
    assert (Hstop : match lo with O => cont pos prev (c :: s) | S _ => None end
                    = Some m -> P m)
      by (destruct lo; [apply Hc | discriminate]).
    destruct hi as [[|h]|]; auto;
      (destruct (set_matches ic cs c); auto;
       match goal with
       | |- orelse ?r _ = _ -> _ =>
         destruct r eqn:E; simpl; auto;
         intros Em; injection Em as <-; eapply IH; eassumption
       end).
Qed.

(** A successful match of a pattern that has group 1 carries both marks. *)
Lemma run_marks ic (p : pattern) :
  forall pos prev s gs ge m,
    run ic p pos prev s gs ge = Some m ->
    ((In GroupOpen p \/ gs <> None) -> g_start m <> None) /\
    ((In GroupClose p \/ ge <> None) -> g_end m <> None).
Proof.
  induction p as [|n p IH]; intros pos prev s gs ge m; simpl.
  - intros E; injection E as <-; simpl.
    split; intros [[]|H]; exact H.
  - destruct n.
    + destruct s as [|c s]; [discriminate|].
      destruct (set_matches ic cs c); [|discriminate].
      intros E; apply IH in E; destruct E as [E1 E2].
      split; intros [[H|H]|H]; try discriminate; auto.
    + intros E.
      apply (repeat_one_cont
               (fun m => ((In GroupOpen p \/ gs <> None) -> g_start m <> None) /\
                         ((In GroupClose p \/ ge <> None) -> g_end m <> None)))
        in E.
      * destruct E as [E1 E2].
        split; intros [[H|H]|H]; try discriminate; auto.
      * intros pos' prev' s' m'. apply IH.
    + destruct (xorb _ _); [|discriminate].
      intros E; apply IH in E; destruct E as [E1 E2].
      split; intros [[H|H]|H]; try discriminate; auto.
    + intros E; apply IH in E; destruct E as [E1 E2].
      split; intros H.
      * apply E1; right; discriminate.
      * apply E2. destruct H as [[H|H]|H]; try discriminate; auto.
    + intros E; apply IH in E; destruct E as [E1 E2].
      split; intros H.
      * apply E1. destruct H as [[H|H]|H]; try discriminate; auto.
      * apply E2; right; discriminate.
Qed.

Lemma search_from_run ic p :
  forall s pos prev m,
    search_from ic p pos prev s = Some m ->
    exists pos' prev' s', run ic p pos' prev' s' None None = Some m.
Proof.
  induction s as [|c s IH]; intros pos prev m; simpl;
    destruct (run ic p pos prev _ None None) eqn:E; try discriminate.
  - intros Em; injection Em as <-; eauto.
  - intros Em; injection Em as <-; eauto.
  - apply IH.
Qed.

(** With group 1 in the pattern, [.group(1)] of a match never raises. *)
Lemma group1_ok ic p text :
  In GroupOpen p -> In GroupClose p ->
  truthy (re_search p text ic) = true ->
  exists v, group1 (re_search p text ic) text = Ok v.
Proof.
  intros Ho Hc. unfold re_search.
  destruct (search_from ic p 0 None text) as [m|] eqn:E; [|discriminate].
  intros _. apply search_from_run in E. destruct E as (pos & prev & s & E).
  apply run_marks in E. destruct E as [E1 E2].
  unfold group1.
  destruct (g_start m); [|exfalso; apply E1; auto].
  destruct (g_end m); [|exfalso; apply E2; auto].
  eauto.
Qed.

(** A pattern that matches at no position of the text is not found. *)
Lemma search_from_none ic p :
  (forall pos prev, run ic p pos prev [] None None = None) ->
  forall s,
    Forall (fun c => forall pos prev s',
              run ic p pos prev (c :: s') None None = None) s ->
    forall pos prev, search_from ic p pos prev s = None.
Proof.
  intros Hnil s H. induction H as [|c s Hc _ IH]; intros pos prev; simpl.
  - now rewrite Hnil.
  - now rewrite Hc.
Qed.

(** ** White space *)

Lemma is_space_enum (c : N) : is_space c = true -> In c space_chars.
Proof.
  unfold is_space, in_ranges, unicode_space, existsb, in_range, fst, snd.
  rewrite !orb_true_iff, !andb_true_iff, !N.leb_le.
  unfold space_chars, In. lia.
Qed.

Lemma spaces_all (P : N -> bool) :
  forallb P space_chars = true ->
  forall c, is_space c = true -> P c = true.
Proof.
  intros H c Hc. rewrite forallb_forall in H. apply H, is_space_enum, Hc.
Qed.

Lemma space_not_letter c :
  is_space c = true ->
  set_matches true [Rng (chr "A") (chr "Z")] c = false.
Proof.
  intros H. apply negb_true_iff.
  revert c H. apply spaces_all. vm_compute. reflexivity.
Qed.

Lemma space_not_literal (x : N) c :
  forallb (fun c => negb (fold_case x =? fold_case c)) space_chars = true ->
  forallb (fun c => negb (x =? c)) space_chars = true ->
  is_space c = true ->
  forall ic, set_matches ic [Chr x] c = false.
Proof.
  intros H1 H2 Hc ic. unfold set_matches, existsb, item_matches.
  rewrite orb_false_r. apply negb_true_iff.
  destruct ic; revert c Hc; apply spaces_all; assumption.
Qed.

Lemma invoice_number_not_in_spaces (s : str) :
  forallb is_space s = true ->
  re_search invoice_number_re s true = None.
Proof.
  intros H. unfold re_search. apply search_from_none.
  - reflexivity.
  - rewrite forallb_forall in H. apply Forall_forall. intros c Hc pos prev s'.
    cbn [run invoice_number_re repeat_one].
    rewrite (space_not_letter c (H c Hc)). reflexivity.
Qed.

Lemma amount_not_in_spaces (s : str) :
  forallb is_space s = true ->
  re_search amount_re s false = None.
Proof.
  intros H. unfold re_search. apply search_from_none.
  - reflexivity.
  - rewrite forallb_forall in H. apply Forall_forall. intros c Hc pos prev s'.
    cbn [run amount_re].
    rewrite (space_not_literal euro c); auto; vm_compute; reflexivity.
Qed.

Lemma due_date_not_in_spaces (s : str) :
  forallb is_space s = true ->
  re_search due_date_re s true = None.
Proof.
  intros H. unfold re_search. apply search_from_none.
  - reflexivity.
  - rewrite forallb_forall in H. apply Forall_forall. intros c Hc pos prev s'.
    change due_date_re with (lit "D" :: tl due_date_re).
    cbn [run lit].
    rewrite (space_not_literal (chr "D") c); auto; vm_compute; reflexivity.
Qed.

Lemma paid_not_in_spaces (s : str) :
  forallb is_space s = true ->
  re_search paid_re s true = None.
Proof.
  intros H. unfold re_search. apply search_from_none.
  - intros pos prev. cbn. destruct (xorb _ _); reflexivity.
  - rewrite forallb_forall in H. apply Forall_forall. intros c Hc pos prev s'.
    change paid_re with (WordBoundary :: lit "P" :: tl (tl paid_re)).
    cbn [run lit].
    rewrite (space_not_literal (chr "P") c); auto;
      try (vm_compute; reflexivity).
    destruct (xorb _ _); reflexivity.
Qed.

(** C3. [extract_invoice_data] never raises: on every text it returns the
    four fields; a field whose pattern is not found is [Unknown] (the status
    is [Unpaid]); and on a text of white space only, the empty text among
    them, the fields are [Unknown], [Unknown], [Unknown] and [Unpaid]. *)
Theorem extraction_is_total (text : str) :
  exists f,
    extract_invoice_data text = Ok f /\
    (re_search invoice_number_re text true = None ->
     invoice_number f = Unknown) /\
    (re_search amount_re text false = None -> amount f = Unknown) /\
    (re_search due_date_re text true = None -> due_date f = Unknown) /\
    (re_search paid_re text true = None -> payment_status f = py "Unpaid") /\
    (forallb is_space text = true ->
     f = mkDetails Unknown Unknown Unknown (py "Unpaid")).
Proof.
  unfold extract_invoice_data.
  assert (F : forall ic p, In GroupOpen p -> In GroupClose p ->
            exists v,
              (if truthy (re_search p text ic)
               then group1 (re_search p text ic) text else Ok Unknown) = Ok v /\
              (re_search p text ic = None -> v = Unknown)).
  { intros ic p Ho Hc.
    destruct (truthy (re_search p text ic)) eqn:E.
    - destruct (group1_ok ic p text Ho Hc E) as [v Hv]. exists v. split; auto.
      intros N. rewrite N in E. discriminate.
    - eauto. }
  destruct (F true invoice_number_re) as (n & -> & Hn); [simpl; auto ..|].
  destruct (F false amount_re) as (a & -> & Ha); [simpl; auto 10 ..|].
  destruct (F true due_date_re) as (d & -> & Hd); [simpl; auto 20 ..|].
  cbn [bind].
  eexists; split; [reflexivity|]. cbn [invoice_number amount due_date payment_status].
  repeat split; auto.
  - intros ->. reflexivity.
  - intros Hs.
    rewrite Hn, Ha, Hd by
      auto using invoice_number_not_in_spaces, amount_not_in_spaces,
        due_date_not_in_spaces.
    rewrite paid_not_in_spaces by assumption. reflexivity.
Qed.

(** C4. The two worked examples of the specification. *)
Theorem worked_examples :
  extract_invoice_data
    (py "Invoice ABC123456 Due Date: 01/05/2025 Total €150.00")
  = Ok (mkDetails (py "ABC123456") (py "150.00") (py "01/05/2025")
          (py "Unpaid")) /\
  extract_invoice_data
    (py "Invoice ABC123456 Due Date: 01/05/2025 Total €150.00"
     ++ py "Status: Paid")
  = Ok (mkDetails (py "ABC123456") (py "150.00") (py "01/05/2025")
          (py "Paid")) /\
  extract_invoice_data
    (py "Invoice ABC123456 Due Date: 01/05/2025 Total €150.00"
     ++ py " Status: Paid")
  = Ok (mkDetails (py "ABC123456") (py "150.00") (py "01/05/2025")
          (py "Paid")).
Proof.
  repeat split; vm_compute; destruct (unicode_isalnum 8364); reflexivity.
Qed.

(** C10. The invoice number is not anchored at a token boundary: of the
    token ABCDEF123456 the extractor returns the proper suffix BCDEF123456,
    neither [Unknown] nor the whole token. *)
Theorem invoice_number_inside_a_token :
  exists f,
    extract_invoice_data (py "ABCDEF123456") = Ok f /\
    invoice_number f = py "BCDEF123456" /\
    py "ABCDEF123456" = chr "A" :: invoice_number f /\
    invoice_number f <> Unknown /\
    invoice_number f <> py "ABCDEF123456".
Proof.
  eexists; split; [vm_compute; reflexivity|].
  cbn [invoice_number]. repeat split; try discriminate.
Qed.

(** ** The word Paid *)

Lemma fold_case_cases c :
  fold_case c = c \/ (65 <= c <= 90 /\ fold_case c = c + 32) \/
  ((c = 304 \/ c = 305) /\ fold_case c = 105) \/
  (c = 383 /\ fold_case c = 115) \/ (c = 8490 /\ fold_case c = 107).
Proof.
  unfold fold_case, in_range.
  destruct (N.leb_spec 65 c); destruct (N.leb_spec c 90); cbn [andb];
    try (right; left; lia);
    (destruct (N.eqb_spec c 304); destruct (N.eqb_spec c 305); cbn [orb];
     try (right; right; left; lia);
     destruct (N.eqb_spec c 383); try (right; right; right; left; lia);
     destruct (N.eqb_spec c 8490); try (right; right; right; right; lia);
     left; reflexivity).
Qed.

(** The first and the last letter of a match of Paid are word characters. *)
Lemma fold_case_P c : fold_case 80 = fold_case c -> is_word c = true.
Proof.
  change (fold_case 80) with 112. intros E.
  assert (H : c = 80 \/ c = 112) by (destruct (fold_case_cases c); lia).
  destruct H; subst; reflexivity.
Qed.

Lemma fold_case_d c : fold_case 100 = fold_case c -> is_word c = true.
Proof.
  change (fold_case 100) with 100. intros E.
  assert (H : c = 68 \/ c = 100) by (destruct (fold_case_cases c); lia).
  destruct H; subst; reflexivity.
Qed.

Lemma paid_re_nodes :
  paid_re = [WordBoundary; Single [Chr 80]; Single [Chr 97]; Single [Chr 105];
             Single [Chr 100]; WordBoundary].
Proof. reflexivity. Qed.

Lemma literal_ignorecase x c :
  set_matches true [Chr x] c = true <-> same_letter_ignorecase x c.
Proof.
  unfold set_matches, existsb, item_matches, same_letter_ignorecase.
  rewrite orb_false_r. apply N.eqb_eq.
Qed.

Lemma run_paid_sound pos prev s m :
  run true paid_re pos prev s None None = Some m ->
  word_at prev = false /\
  exists x post,
    s = x ++ post /\ Forall2 same_letter_ignorecase (py "Paid") x /\
    word_at (hd_error post) = false.
Proof.
  rewrite paid_re_nodes. cbn [run].
  destruct s as [|c1 [|c2 [|c3 [|c4 post]]]];
    repeat match goal with
    | |- (if ?b then _ else _) = Some _ -> _ =>
      let E := fresh "E" in destruct b eqn:E; [|discriminate]
    end; try discriminate.
  intros _.
  apply literal_ignorecase in E0, E1, E2, E3.
  cbn [hd_error word_at] in E, E4.
  rewrite (fold_case_P c1 E0) in E. rewrite (fold_case_d c4 E3) in E4.
  split; [destruct (word_at prev); [discriminate | reflexivity]|].
  exists [c1; c2; c3; c4], post. split; [reflexivity|]. split.
  - change (py "Paid") with [80; 97; 105; 100]. repeat constructor; assumption.
  - destruct (word_at (hd_error post)); [discriminate | reflexivity].
Qed.

Lemma run_paid_complete pos prev x post :
  word_at prev = false ->
  Forall2 same_letter_ignorecase (py "Paid") x ->
  word_at (hd_error post) = false ->
  exists m, run true paid_re pos prev (x ++ post) None None = Some m.
Proof.
  intros Hp Hx Hq. change (py "Paid") with [80; 97; 105; 100] in Hx.
  inversion Hx as [|? c1 ? x1 E1 Hx1]; subst; clear Hx.
  inversion Hx1 as [|? c2 ? x2 E2 Hx2]; subst; clear Hx1.
  inversion Hx2 as [|? c3 ? x3 E3 Hx3]; subst; clear Hx2.
  inversion Hx3 as [|? c4 ? x4 E4 Hx4]; subst; clear Hx3.
  inversion Hx4; subst; clear Hx4.
  rewrite paid_re_nodes. cbn [run app hd_error word_at].
  rewrite Hp, (fold_case_P c1 E1), (fold_case_d c4 E4), Hq.
  apply literal_ignorecase in E1, E2, E3, E4.
  rewrite E1, E2, E3, E4. cbn [xorb]. eauto.
Qed.

Lemma search_paid (s : str) :
  forall pos prev,
    truthy (search_from true paid_re pos prev s) = true <->
    standalone_after prev same_letter_ignorecase (py "Paid") s.
Proof.
  induction s as [|c s IH]; intros pos prev.
  - cbn [search_from].
    destruct (run true paid_re pos prev [] None None) as [m|] eqn:E.
    + apply run_paid_sound in E. destruct E as (Hp & x & post & Es & Hx & Hq).
      split; [|reflexivity]. intros _. exists [], x, post. auto.
    + split; [discriminate|].
      intros (pre & x & post & Es & Hx & Hp & Hq).
      destruct pre; [|discriminate]. cbn [app last_char fold_left] in *.
      destruct (run_paid_complete pos prev x post Hp Hx Hq) as [m Hm].
      rewrite <- Es in Hm. congruence.
  - cbn [search_from].
    destruct (run true paid_re pos prev (c :: s) None None) as [m|] eqn:E.
    + apply run_paid_sound in E. destruct E as (Hp & x & post & Es & Hx & Hq).
      split; [|reflexivity]. intros _. exists [], x, post. auto.
    + rewrite IH. split.
      * intros (pre & x & post & Es & Hx & Hp & Hq).
        exists (c :: pre), x, post. subst s. auto.
      * intros (pre & x & post & Es & Hx & Hp & Hq).
        destruct pre as [|c' pre].
        -- cbn [app last_char fold_left] in *.
           destruct (run_paid_complete pos prev x post Hp Hx Hq) as [m Hm].
           rewrite <- Es in Hm. congruence.
        -- injection Es as <- Es. exists pre, x, post. auto.
Qed.

(** ** Greedy repeats and the leftmost match *)

(** What a repeat that succeeds has read. *)
Lemma repeat_one_sound ic cs cont :
  forall s lo hi pos prev m,
    repeat_one ic cs lo hi cont pos prev s = Some m ->
    exists r s',
      s = r ++ s' /\ forallb (set_matches ic cs) r = true /\
      (lo <= List.length r)%nat /\
      (forall h, hi = Some h -> (List.length r <= h)%nat) /\
      cont (pos + List.length r)%nat (last_char prev r) s' = Some m.
Proof.
  induction s as [|c s IH]; intros lo hi pos prev m H.
  - assert (E : lo = O /\ cont pos prev [] = Some m).
    { simpl in H. destruct hi as [[|h]|]; destruct lo; try discriminate;
        auto. }
    destruct E as [-> E]. exists [], []. cbn [List.length last_char fold_left].
    rewrite Nat.add_0_r. repeat split; auto. intros; lia.
  - assert (Hstop : match lo with O => cont pos prev (c :: s) | S _ => None end
                    = Some m ->
                    exists r s',
                      c :: s = r ++ s' /\ forallb (set_matches ic cs) r = true /\
                      (lo <= List.length r)%nat /\
                      (forall h, hi = Some h -> (List.length r <= h)%nat) /\
                      cont (pos + List.length r)%nat (last_char prev r) s'
                      = Some m).
    { destruct lo; [|discriminate]. intros E. exists [], (c :: s).
      cbn [List.length last_char fold_left]. rewrite Nat.add_0_r.
      repeat split; auto. intros; lia. }
    simpl in H.
    assert (Hrec : hi <> Some O -> set_matches ic cs c = true ->
                   repeat_one ic cs (pred lo) (option_map pred hi) cont
                     (S pos) (Some c) s = Some m ->
                   exists r s',
                     c :: s = r ++ s' /\ forallb (set_matches ic cs) r = true /\
                     (lo <= List.length r)%nat /\
                     (forall h, hi = Some h -> (List.length r <= h)%nat) /\
                     cont (pos + List.length r)%nat (last_char prev r) s'
                     = Some m).
    { intros Hhi Hc E. apply IH in E.
      destruct E as (r & s' & -> & Hr & Hlo & Hh & Hk).
      exists (c :: r), s'. cbn [List.length forallb app last_char fold_left].
      rewrite Hc, Hr. repeat split; auto.
      - lia.
      - intros h ->. destruct h; [congruence|].
        specialize (Hh h eq_refl). lia.
      - rewrite <- Hk. f_equal. lia. }
    destruct hi as [[|h]|]; auto;
      (destruct (set_matches ic cs c) eqn:Hc; auto;
       match type of H with
       | orelse ?r _ = _ =>
         destruct r eqn:E; cbn [orelse] in H; auto;
         apply Hrec; congruence
       end).
Qed.

(** A repeat takes the longest run it may, when the rest of the pattern
    matches after it. *)
Lemma repeat_one_greedy ic cs cont :
  forall r s' lo hi pos prev m,
    forallb (set_matches ic cs) r = true ->
    (lo <= List.length r)%nat ->
    (forall h, hi = Some h -> (List.length r <= h)%nat) ->
    (hi = Some (List.length r) \/
     match s' with [] => True | c :: _ => set_matches ic cs c = false end) ->
    cont (pos + List.length r)%nat (last_char prev r) s' = Some m ->
    repeat_one ic cs lo hi cont pos prev (r ++ s') = Some m.
Proof.
  induction r as [|c r IH]; intros s' lo hi pos prev m Hr Hlo Hhi Hmax Hk.
  - cbn [List.length last_char fold_left app] in *.
    rewrite Nat.add_0_r in Hk.
    assert (lo = O) by lia. subst lo.
    destruct s' as [|c s']; simpl.
    + destruct hi as [[|h]|]; assumption.
    + destruct hi as [[|h]|]; try assumption;
        (destruct Hmax as [Hmax|Hmax]; [discriminate|]; now rewrite Hmax).
  - cbn [List.length forallb app last_char fold_left] in *.
    apply andb_true_iff in Hr. destruct Hr as [Hc Hr].
    assert (E : repeat_one ic cs (pred lo) (option_map pred hi) cont
                  (S pos) (Some c) (r ++ s') = Some m).
    { apply IH; auto.
      - lia.
      - intros h Hh. destruct hi as [h0|]; [|discriminate].
        cbn in Hh. injection Hh as <-. specialize (Hhi h0 eq_refl). lia.
      - destruct Hmax as [->|Hmax]; [left; reflexivity | right; exact Hmax].
      - rewrite <- Hk. f_equal. lia. }
    simpl. rewrite Hc, E.
    destruct hi as [[|h]|]; try reflexivity.
    specialize (Hhi O eq_refl). lia.
Qed.

(** [re.search] returns the match at the first position that has one. *)
Lemma search_from_found ic p :
  forall s pos prev m,
    search_from ic p pos prev s = Some m ->
    exists pre s1,
      s = pre ++ s1 /\
      run ic p (pos + List.length pre)%nat (last_char prev pre) s1 None None
      = Some m /\
      (forall pre1 c pre2, pre = pre1 ++ c :: pre2 ->
         run ic p (pos + List.length pre1)%nat (last_char prev pre1)
           (c :: pre2 ++ s1) None None = None).
Proof.
  induction s as [|c s IH]; intros pos prev m H; cbn [search_from] in H.
  - destruct (run ic p pos prev [] None None) eqn:E; [|discriminate].
    exists [], []. cbn [List.length last_char fold_left app].
    rewrite Nat.add_0_r. repeat split; [congruence|].
    intros [|? ?] ? ? ?; discriminate.
  - destruct (run ic p pos prev (c :: s) None None) eqn:E.
    + exists [], (c :: s). cbn [List.length last_char fold_left app].
      rewrite Nat.add_0_r. repeat split; [congruence|].
      intros [|? ?] ? ? ?; discriminate.
    + apply IH in H. destruct H as (pre & s1 & -> & Hm & Hnone).
      exists (c :: pre), s1. cbn [List.length last_char fold_left app].
      repeat split.
      * rewrite <- Hm. f_equal. lia.
      * intros [|c1 pre1] c2 pre2 Epre.
        -- injection Epre as <- <-.
           cbn [List.length last_char fold_left]. rewrite Nat.add_0_r.
           exact E.
        -- injection Epre as <- ->.
           cbn [List.length last_char fold_left].
           rewrite <- (Hnone pre1 c2 pre2 eq_refl). f_equal. lia.
Qed.

Lemma search_from_leftmost ic p :
  forall pre s1 pos prev m,
    run ic p (pos + List.length pre)%nat (last_char prev pre) s1 None None
    = Some m ->
    (forall pre1 c pre2, pre = pre1 ++ c :: pre2 ->
       run ic p (pos + List.length pre1)%nat (last_char prev pre1)
         (c :: pre2 ++ s1) None None = None) ->
    search_from ic p pos prev (pre ++ s1) = Some m.
Proof.
  induction pre as [|c pre IH]; intros s1 pos prev m Hm Hnone.
  - cbn [List.length last_char fold_left app] in *.
    rewrite Nat.add_0_r in Hm.
    destruct s1; cbn [search_from]; rewrite Hm; reflexivity.
  - cbn [app search_from].
    pose proof (Hnone [] c pre eq_refl) as H0.
    cbn [List.length last_char fold_left] in H0. rewrite Nat.add_0_r in H0.
    rewrite H0. apply IH.
    + rewrite <- Hm. cbn [List.length last_char fold_left]. f_equal. lia.
    + intros pre1 c1 pre2 ->.
      rewrite <- (Hnone (c :: pre1) c1 pre2 eq_refl).
      cbn [List.length last_char fold_left]. f_equal. lia.
Qed.

(** ** The amount *)

Lemma amount_re_nodes :
  amount_re =
  [Single [Chr 8364]; Repeat 0 (Some 1%nat) [CatSpace]; GroupOpen;
   Repeat 1 None [CatDigit; Chr 44]; Single [Chr 46];
   Repeat 2 (Some 2%nat) [CatDigit]; GroupClose].
Proof. reflexivity. Qed.

Lemma set_digit_or_comma c :
  set_matches false [CatDigit; Chr 44] c = digit_or_comma c.
Proof.
  unfold set_matches, existsb, item_matches, digit_or_comma.
  rewrite orb_false_r, (N.eqb_sym 44 c). reflexivity.
Qed.

Lemma set_space c : set_matches false [CatSpace] c = is_space c.
Proof. unfold set_matches, existsb, item_matches. apply orb_false_r. Qed.

Lemma set_digit c : set_matches false [CatDigit] c = is_decimal c.
Proof. unfold set_matches, existsb, item_matches. apply orb_false_r. Qed.

Lemma set_literal x c : set_matches false [Chr x] c = (x =? c).
Proof. unfold set_matches, existsb, item_matches. apply orb_false_r. Qed.

Lemma space_not_digit_or_comma c :
  is_space c = true -> digit_or_comma c = false.
Proof.
  intros H. apply negb_true_iff. revert c H. apply spaces_all.
  vm_compute. reflexivity.
Qed.

Lemma forallb_ext_eq {A} (f g : A -> bool) (l : list A) :
  (forall x, f x = g x) -> forallb f l = forallb g l.
Proof. intros H. induction l; simpl; [reflexivity | now rewrite H, IHl]. Qed.

Lemma run_amount_complete pos prev s n :
  amount_after s n ->
  exists ws post,
    s = ws ++ n ++ post /\
    run false amount_re pos prev (euro :: s) None None
    = Some (mkMatch (pos + 1 + List.length ws + List.length n)
              (Some (pos + 1 + List.length ws)%nat)
              (Some (pos + 1 + List.length ws + List.length n)%nat)).
Proof.
  intros (ws & r & d1 & d2 & post & Es & En & Hws & Hr & Hdc & Hd1 & Hd2).
  exists ws, post. split; [exact Es|].
  rewrite amount_re_nodes. cbn [run]. rewrite set_literal.
  change (8364 =? euro) with true. cbv iota.
  subst s n. rewrite <- !app_assoc.
  apply repeat_one_greedy.
  - rewrite (forallb_ext_eq _ _ ws set_space).
    destruct Hws as [->|(w & -> & Hw)]; cbn [forallb]; [|rewrite Hw];
      reflexivity.
  - lia.
  - intros h Eh; injection Eh as <-.
    destruct Hws as [->|(w & -> & Hw)]; cbn [List.length]; lia.
  - destruct Hws as [->|(w & -> & Hw)]; [right | left; reflexivity].
    destruct r as [|c r]; [congruence|]. cbn [app].
    rewrite set_space. cbn [forallb] in Hdc.
    apply andb_true_iff in Hdc. destruct Hdc as [Hc _].
    destruct (is_space c) eqn:E; [|reflexivity].
    apply space_not_digit_or_comma in E. congruence.
  - cbn [run]. apply repeat_one_greedy.
    + rewrite (forallb_ext_eq _ _ r set_digit_or_comma). exact Hdc.
    + destruct r; [congruence | cbn [List.length]; lia].
    + intros h Eh; discriminate.
    + right. cbn [app]. reflexivity.
    + cbn [run app]. rewrite set_literal. change (46 =? 46) with true.
      cbv iota.
      apply (repeat_one_greedy false [CatDigit] _ [d1; d2] post).
      * cbn [forallb]. rewrite !set_digit, Hd1, Hd2. reflexivity.
      * cbn [List.length]; lia.
      * intros h Eh; injection Eh as <-. cbn [List.length]; lia.
      * left. reflexivity.
      * cbn [run]. rewrite !length_app. cbn [List.length].
        f_equal. f_equal; [lia | f_equal; lia | f_equal; lia].
Qed.

Lemma run_amount_sound pos prev s m :
  run false amount_re pos prev s None None = Some m ->
  exists s1 n, s = euro :: s1 /\ amount_after s1 n.
Proof.
  rewrite amount_re_nodes. cbn [run]. destruct s as [|c s1]; [discriminate|].
  rewrite set_literal. destruct (N.eqb_spec 8364 c) as [<-|]; [|discriminate].
  intros H. apply repeat_one_sound in H.
  destruct H as (ws & s2 & -> & Hws & _ & Hh & H).
  cbn [run] in H. apply repeat_one_sound in H.
  destruct H as (r & s3 & -> & Hr & Hlo & _ & H).
  cbn [run] in H. destruct s3 as [|c s3]; [discriminate|].
  rewrite set_literal in H.
  destruct (N.eqb_spec 46 c) as [<-|]; [|discriminate].
  apply repeat_one_sound in H.
  destruct H as (dd & post & -> & Hdd & Hlo2 & Hhi2 & _).
  specialize (Hhi2 2%nat eq_refl).
  destruct dd as [|d1 [|d2 [|? ?]]]; cbn [List.length] in *; try lia.
  cbn [forallb] in Hdd. rewrite !set_digit in Hdd.
  apply andb_true_iff in Hdd. destruct Hdd as [Hd1 Hd2].
  apply andb_true_iff in Hd2. destruct Hd2 as [Hd2 _].
  exists (ws ++ r ++ 46 :: [d1; d2] ++ post), (r ++ [46; d1; d2]).
  split; [reflexivity|].
  exists ws, r, d1, d2, post. repeat split; auto.
  - now rewrite <- !app_assoc.
  - specialize (Hh 1%nat eq_refl).
    destruct ws as [|w [|? ?]]; cbn [List.length] in *; try lia; auto.
    right. exists w. split; [reflexivity|].
    cbn [forallb] in Hws. rewrite set_space in Hws.
    now apply andb_true_iff in Hws.
  - destruct r; cbn [List.length] in *; [lia | discriminate].
  - rewrite <- (forallb_ext_eq _ _ r set_digit_or_comma). exact Hr.
Qed.

Lemma slice_middle (x y z : str) (a : nat) :
  a = List.length x -> slice (x ++ y ++ z) a (a + List.length y) = y.
Proof.
  intros ->. unfold slice.
  replace (List.length x + List.length y - List.length x)%nat
    with (List.length y) by lia.
  rewrite skipn_app, skipn_all, Nat.sub_diag. cbn [skipn app].
  rewrite firstn_app, firstn_all, Nat.sub_diag. cbn [firstn].
  apply app_nil_r.
Qed.

Lemma amount_found text n :
  first_amount text n ->
  exists a,
    re_search amount_re text false
    = Some (mkMatch (a + List.length n) (Some a)
              (Some (a + List.length n)%nat)) /\
    slice text a (a + List.length n) = n.
Proof.
  intros (pre & s & -> & Ha & Hfirst).
  destruct (run_amount_complete (0 + List.length pre) (last_char None pre)
              s n Ha) as (ws & post & Es & Hrun).
  exists (0 + List.length pre + 1 + List.length ws)%nat. split.
  - unfold re_search. apply search_from_leftmost; [exact Hrun|].
    intros pre1 c pre2 ->. clear Hrun.
    match goal with
    | |- ?r = None => destruct r eqn:E; [|reflexivity]
    end.
    exfalso. apply run_amount_sound in E.
    destruct E as (s1 & n1 & E & Ha1). injection E as -> <-.
    exact (Hfirst pre1 pre2 eq_refl n1 Ha1).
  - subst s.
    replace (pre ++ euro :: ws ++ n ++ post)
      with ((pre ++ euro :: ws) ++ n ++ post)
      by (rewrite <- app_assoc; reflexivity).
    apply slice_middle. rewrite length_app. cbn [List.length]. lia.
Qed.

Lemma amount_not_found text :
  (forall n, ~ first_amount text n) ->
  re_search amount_re text false = None.
Proof.
  intros Hno. unfold re_search.
  destruct (search_from false amount_re 0 None text) as [m|] eqn:E;
    [|reflexivity].
  exfalso. apply search_from_found in E.
  destruct E as (pre & s1 & -> & Hrun & Hnone).
  apply run_amount_sound in Hrun. destruct Hrun as (s2 & n & -> & Ha).
  apply (Hno n). exists pre, s2. repeat split; auto.
  intros pre1 s' -> n1 Ha1.
  destruct (run_amount_complete (0 + List.length pre1) (last_char None pre1)
              _ n1 Ha1) as (ws & post & _ & Hrun).
  rewrite (Hnone pre1 euro s' eq_refl) in Hrun. discriminate.
Qed.

(** ** The fields *)

Lemma field_value ic p text :
  In GroupOpen p -> In GroupClose p ->
  exists v,
    (if truthy (re_search p text ic)
     then group1 (re_search p text ic) text else Ok Unknown) = Ok v /\
    field_of text (re_search p text ic) v.
Proof.
  intros Ho Hc.
  destruct (re_search p text ic) as [m|] eqn:E; cbn [truthy];
    [|exists Unknown; split; reflexivity].
  unfold re_search in E. apply search_from_run in E.
  destruct E as (pos & prev & s & E).
  apply run_marks in E. destruct E as [E1 E2].
  cbn [group1 field_of].
  destruct (g_start m) as [a|]; [|exfalso; apply E1; auto].
  destruct (g_end m) as [b|]; [|exfalso; apply E2; auto].
  exists (slice text a b). split; [reflexivity|].
  exists a, b. auto.
Qed.

Lemma extract_fields text :
  exists n a d,
    extract_invoice_data text
    = Ok (mkDetails n a d (if truthy (re_search paid_re text true)
                           then py "Paid" else py "Unpaid")) /\
    field_of text (re_search invoice_number_re text true) n /\
    field_of text (re_search amount_re text false) a /\
    field_of text (re_search due_date_re text true) d.
Proof.
  unfold extract_invoice_data.
  destruct (field_value true invoice_number_re text) as (n & -> & Hn);
    [simpl; auto ..|].
  destruct (field_value false amount_re text) as (a & -> & Ha);
    [simpl; auto 10 ..|].
  destruct (field_value true due_date_re text) as (d & -> & Hd);
    [simpl; auto 20 ..|].
  exists n, a, d. auto.
Qed.

(** C6, as amended.  The amount is taken at the first euro sign that is
    followed, after at most one white space character, by a run of digits
    and commas in any arrangement, a dot and two digits; it is that run, the
    dot and the two digits as they stand in the text, without the euro sign
    and the white space; when no euro sign is followed so, it is
    [Unknown]. *)
Theorem amount_is_first_euro_number (text : str) :
  exists f,
    extract_invoice_data text = Ok f /\
    (forall n, first_amount text n -> amount f = n) /\
    ((forall n, ~ first_amount text n) -> amount f = Unknown).
Proof.
  destruct (extract_fields text) as (n & a & d & -> & _ & Ha & _).
  eexists; split; [reflexivity|]. cbn [amount]. split.
  - intros n0 Hn0. apply amount_found in Hn0.
    destruct Hn0 as (k & E & Hs). rewrite E in Ha. cbn [field_of] in Ha.
    destruct Ha as (a0 & b0 & Ea & Eb & ->). cbn in Ea, Eb.
    injection Ea as <-. injection Eb as <-. exact Hs.
  - intros Hno. rewrite (amount_not_found text Hno) in Ha. exact Ha.
Qed.

(** Which characters [re.IGNORECASE] takes for the letters of Paid. *)
Lemma paid_letters (x : str) :
  Forall2 same_letter_ignorecase (py "Paid") x <->
  exists c1 c2 c3 c4,
    x = [c1; c2; c3; c4] /\
    (c1 = chr "P" \/ c1 = chr "p") /\ (c2 = chr "A" \/ c2 = chr "a") /\
    (c3 = chr "I" \/ c3 = chr "i" \/ c3 = 304 \/ c3 = 305) /\
    (c4 = chr "D" \/ c4 = chr "d").
Proof.
  change (py "Paid") with [80; 97; 105; 100].
  change (chr "P") with 80. change (chr "p") with 112.
  change (chr "A") with 65. change (chr "a") with 97.
  change (chr "I") with 73. change (chr "i") with 105.
  change (chr "D") with 68. change (chr "d") with 100.
  unfold same_letter_ignorecase. split.
  - intros Hx.
    inversion Hx as [|? c1 ? x1 E1 Hx1]; subst; clear Hx.
    inversion Hx1 as [|? c2 ? x2 E2 Hx2]; subst; clear Hx1.
    inversion Hx2 as [|? c3 ? x3 E3 Hx3]; subst; clear Hx2.
    inversion Hx3 as [|? c4 ? x4 E4 Hx4]; subst; clear Hx3.
    inversion Hx4; subst; clear Hx4.
    exists c1, c2, c3, c4. split; [reflexivity|].
    change (fold_case 80) with 112 in E1. change (fold_case 97) with 97 in E2.
    change (fold_case 105) with 105 in E3.
    change (fold_case 100) with 100 in E4.
    repeat split.
    + destruct (fold_case_cases c1); lia.
    + destruct (fold_case_cases c2); lia.
    + destruct (fold_case_cases c3); lia.
    + destruct (fold_case_cases c4); lia.
  - intros (c1 & c2 & c3 & c4 & -> & H1 & H2 & H3 & H4).
    repeat constructor.
    + destruct H1; subst; reflexivity.
    + destruct H2; subst; reflexivity.
    + destruct H3 as [|[|[|]]]; subst; reflexivity.
    + destruct H4; subst; reflexivity.
Qed.

Lemma same_letter_is_ignorecase a b :
  a < 128 -> same_letter a b -> same_letter_ignorecase a b.
Proof.
  unfold same_letter, same_letter_ignorecase, ascii_fold, fold_case, in_range.
  intros Ha.
  destruct (N.leb_spec 65 a); destruct (N.leb_spec a 90);
    destruct (N.leb_spec 65 b); destruct (N.leb_spec b 90); cbn [andb];
    intros E; try lia;
    repeat match goal with
    | |- context [N.eqb ?x ?y] => destruct (N.eqb_spec x y); try lia
    end; cbn [orb]; lia.
Qed.

(** C5, as amended.  The status is [Paid] when Paid stands in the text as a
    word of its own, spelt with P or p, A or a, D or d and, for its third
    letter, I, i, U+0130 or U+0131; it is [Unpaid] when it does not.  Every
    upper and lower case spelling of Paid is among these. *)
Theorem paid_iff_standalone_word (text : str) :
  exists f,
    extract_invoice_data text = Ok f /\
    (standalone same_letter_ignorecase (py "Paid") text ->
     payment_status f = py "Paid") /\
    (~ standalone same_letter_ignorecase (py "Paid") text ->
     payment_status f = py "Unpaid") /\
    (standalone same_letter (py "Paid") text ->
     payment_status f = py "Paid") /\
    (forall x,
       Forall2 same_letter_ignorecase (py "Paid") x <->
       exists c1 c2 c3 c4,
         x = [c1; c2; c3; c4] /\
         (c1 = chr "P" \/ c1 = chr "p") /\ (c2 = chr "A" \/ c2 = chr "a") /\
         (c3 = chr "I" \/ c3 = chr "i" \/ c3 = 304 \/ c3 = 305) /\
         (c4 = chr "D" \/ c4 = chr "d")).
Proof.
  destruct (extract_fields text) as (n & a & d & -> & _).
  eexists; split; [reflexivity|]. cbn [payment_status].

  pose proof (search_paid text 0 None) as H. fold (re_search paid_re text true) in H.
  unfold standalone.
  assert (Hin : standalone_after None same_letter_ignorecase (py "Paid") text ->
                (if truthy (re_search paid_re text true)
                 then py "Paid" else py "Unpaid") = py "Paid").
  { intros Hs. apply H in Hs. rewrite Hs. reflexivity. }
  split; [exact Hin|]. split; [|split; [|exact paid_letters]].
  - intros Hs. destruct (truthy (re_search paid_re text true)); [|reflexivity].
    exfalso. apply Hs, H. reflexivity.
  - intros (pre & x & post & E & Hx & Hp & Hq). apply Hin.
    exists pre, x, post. repeat split; auto.
    clear - Hx. change (py "Paid") with [80; 97; 105; 100] in *.
    inversion Hx as [|? c1 ? x1 E1 Hx1]; subst; clear Hx.
    inversion Hx1 as [|? c2 ? x2 E2 Hx2]; subst; clear Hx1.
    inversion Hx2 as [|? c3 ? x3 E3 Hx3]; subst; clear Hx2.
    inversion Hx3 as [|? c4 ? x4 E4 Hx4]; subst; clear Hx3.
    inversion Hx4; subst; clear Hx4.
    repeat constructor; apply same_letter_is_ignorecase; auto; reflexivity.
Qed.
(** * Storing again *)

Lemma satisfies_self_identity (d : document) :
  satisfies [(k_email_uid, email_uid d); (k_sender, sender d);
             (k_invoice_number, invoice_number (details d))] d = true.
Proof. apply identity_query. repeat split. Qed.

(** With its lookups answered, what a call leaves behind. *)
Lemma world_after_decision (w : world) (d : document) :
  answered 2 w ->
  world_after w d =
  match decision (invoices w) d with
  | Duplicate =>
    mkWorld (invoices w) (recurring_invoices w) (tl (outages w))
  | Recurring =>
    mkWorld (invoices w) (recurring_invoices w ++ [d]) (tl (tl (outages w)))
  | New =>
    mkWorld (invoices w ++ [d]) (recurring_invoices w) (tl (tl (outages w)))
  end.
Proof.
  unfold world_after, dispatch, store_in_mongo, bindM, find_one, insert_one,
    print, ret, answered, decision.
  cbn [documents]. rewrite <- !truthy_find.
  destruct (outages w) as [|[|] [|[|] ?]];
    cbn [tl firstn existsb orb outages invoices recurring_invoices];
    try discriminate; intros _;
    destruct (truthy (find _ (invoices w)));
    cbn [tl outages invoices recurring_invoices fst snd app]; try reflexivity;
    destruct (truthy (find _ (invoices w)));
    destruct (str_eqb (due_date (details d)) Unknown); reflexivity.
Qed.

Lemma answered_le (n m : nat) (w : world) :
  (n <= m)%nat -> answered m w -> answered n w.
Proof.
  unfold answered. intros Hle. generalize (outages w). revert m Hle.
  induction n as [|n IH]; intros m Hle o H; [reflexivity|].
  destruct m as [|m]; [lia|]. destruct o as [|b o]; [reflexivity|].
  cbn [firstn existsb] in *. apply orb_false_iff in H. destruct H as [-> H].
  cbn [orb]. apply (IH m); [lia | exact H].
Qed.

Lemma answered_tl (n : nat) (w w' : world) :
  outages w' = tl (outages w) -> answered (S n) w -> answered n w'.
Proof.
  unfold answered. intros ->. destruct (outages w) as [|b o].
  - destruct n; reflexivity.
  - cbn [firstn existsb tl]. intros H. apply orb_false_iff in H. apply H.
Qed.

Lemma answered_after_two (n : nat) (w w' : world) :
  outages w' = tl (tl (outages w)) -> answered (S (S n)) w -> answered n w'.
Proof.
  intros E H.
  apply (answered_tl n (mkWorld [] [] (tl (outages w))) w' E).
  apply (answered_tl (S n) w (mkWorld [] [] (tl (outages w))) eq_refl H).
Qed.

Lemma duplicate_run (w : world) (d : document) :
  answered 1 w -> has_identity_match w d ->
  classify w d = Some Duplicate /\
  world_after w d
  = mkWorld (invoices w) (recurring_invoices w) (tl (outages w)).
Proof.
  intros Ha Hm. dispatch_paths w d; try contradiction; split; reflexivity.
Qed.

(** X1. Storing a record that was just stored as new is a duplicate: the
    second call reaches [Duplicate] and changes neither collection. *)
Theorem new_then_duplicate (w : world) (d : document) :
  answered 3 w -> classify w d = Some New ->
  classify (world_after w d) d = Some Duplicate /\
  invoices (world_after (world_after w d) d) = invoices w ++ [d] /\
  recurring_invoices (world_after (world_after w d) d)
  = recurring_invoices w.
Proof.
  intros A3 Hnew.
  assert (A2 : answered 2 w) by (apply (answered_le 2 3); [lia | exact A3]).
  rewrite (classify_decision w d A2) in Hnew. injection Hnew as Hnew.
  pose proof (world_after_decision w d A2) as Hw. rewrite Hnew in Hw.
  assert (A' : answered 1 (world_after w d)).
  { apply (answered_after_two 1 w); [rewrite Hw; reflexivity | exact A3]. }
  assert (M : has_identity_match (world_after w d) d).
  { exists d. rewrite Hw. cbn [invoices]. split.
    - apply in_or_app. right. left. reflexivity.
    - repeat split. }
  destruct (duplicate_run _ d A' M) as [Hc Hw2].
  split; [exact Hc|]. rewrite Hw2, Hw. split; reflexivity.
Qed.




(** * The invoice number and the due date *)

(** A field whose pattern matches where [at_] says, and only there, is the
    first thing [at_] finds in the text. *)
Lemma field_is_first_match ic p (at_ : str -> str -> Prop) text v :
  (forall pos prev s n, at_ s n ->
     exists x post e,
       s = x ++ n ++ post /\
       run ic p pos prev s None None
       = Some (mkMatch e (Some (pos + List.length x)%nat)
                 (Some (pos + List.length x + List.length n)%nat))) ->
  (forall pos prev s m,
     run ic p pos prev s None None = Some m -> exists n, at_ s n) ->
  field_of text (re_search p text ic) v ->
  (forall n, first_at at_ text n -> v = n) /\
  ((forall n, ~ first_at at_ text n) -> v = Unknown) /\
  (first_at at_ text v \/ (v = Unknown /\ forall n, ~ first_at at_ text n)).
Proof.
  intros Hcomplete Hsound Hv.
  assert (I1 : forall n, first_at at_ text n ->
            exists a e,
              re_search p text ic
              = Some (mkMatch e (Some a) (Some (a + List.length n)%nat)) /\
              slice text a (a + List.length n) = n).
  { intros n (pre & s & -> & Ha & Hfirst).
    destruct (Hcomplete (0 + List.length pre)%nat (last_char None pre) s n Ha)
      as (x & post & e & Es & Hrun).
    exists (0 + List.length pre + List.length x)%nat, e. split.
    - unfold re_search. apply search_from_leftmost; [exact Hrun|].
      intros pre1 c pre2 ->. clear Hrun.
      match goal with
      | |- ?r = None => destruct r eqn:E; [|reflexivity]
      end.
      exfalso. apply Hsound in E. destruct E as (n1 & Ha1).
      apply (Hfirst pre1 (c :: pre2) eq_refl) with (n1 := n1);
        [discriminate | exact Ha1].
    - subst s. rewrite app_assoc. apply slice_middle.
      rewrite length_app. lia. }
  assert (I2 : forall m, re_search p text ic = Some m ->
            exists n, first_at at_ text n).
  { intros m E. unfold re_search in E. apply search_from_found in E.
    destruct E as (pre & s1 & -> & Hrun & Hnone).
    destruct (Hsound _ _ _ _ Hrun) as (n & Ha).
    exists n, pre, s1. repeat split; auto.
    intros pre1 s' -> Hs' n1 Ha1.
    destruct s' as [|c pre2]; [congruence|].
    destruct (Hcomplete (0 + List.length pre1)%nat (last_char None pre1)
                _ n1 Ha1) as (x & post & e & _ & Hrun1).
    cbn [app] in Hrun1. rewrite (Hnone pre1 c pre2 eq_refl) in Hrun1.
    discriminate. }
  assert (H1 : forall n, first_at at_ text n -> v = n).
  { intros n Hn. destruct (I1 n Hn) as (a & e & E & Hs).
    rewrite E in Hv. cbn [field_of g_start g_end] in Hv.
    destruct Hv as (a0 & b0 & Ea & Eb & ->).
    injection Ea as <-. injection Eb as <-. exact Hs. }
  split; [exact H1|].
  destruct (re_search p text ic) as [m|] eqn:E.
  - destruct (I2 m eq_refl) as (n & Hn).
    split; [intros Hno; destruct (Hno n Hn)|].
    left. rewrite (H1 n Hn). exact Hn.
  - cbn [field_of] in Hv. split; [intros _; exact Hv|].
    right. split; [exact Hv|].
    intros n Hn. destruct (I1 n Hn) as (a & e & E' & _). discriminate.
Qed.

(** Boolean comparisons as propositions, for [lia]. *)
Ltac to_props :=
  unfold in_range in *;
  repeat rewrite ?orb_true_iff, ?andb_true_iff, ?orb_false_iff,
    ?andb_false_iff, ?N.leb_le, ?N.leb_gt, ?N.eqb_eq, ?N.eqb_neq in *.

Lemma fold_case_spec c :
  (65 <= c <= 90 /\ fold_case c = c + 32) \/
  ((c = 304 \/ c = 305) /\ fold_case c = 105) \/
  (c = 383 /\ fold_case c = 115) \/ (c = 8490 /\ fold_case c = 107) \/
  (~ 65 <= c <= 90 /\ c <> 304 /\ c <> 305 /\ c <> 383 /\ c <> 8490 /\
   fold_case c = c).
Proof.
  unfold fold_case, in_range.
  destruct (N.leb_spec 65 c); destruct (N.leb_spec c 90); cbn [andb];
    try (left; lia);
    (destruct (N.eqb_spec c 304); destruct (N.eqb_spec c 305); cbn [orb];
     try (right; left; lia);
     destruct (N.eqb_spec c 383); try (right; right; left; lia);
     destruct (N.eqb_spec c 8490); try (right; right; right; left; lia);
     right; right; right; right; lia).
Qed.

Lemma to_upper_spec x :
  (97 <= x <= 122 /\ to_upper x = x - 32) \/
  (~ 97 <= x <= 122 /\ to_upper x = x).
Proof.
  unfold to_upper, in_range.
  destruct (N.leb_spec 97 x); destruct (N.leb_spec x 122); cbn [andb];
    try (left; lia); right; lia.
Qed.

Lemma set_letter c : set_matches true [Rng (chr "A") (chr "Z")] c = letter c.
Proof.
  change (chr "A") with 65. change (chr "Z") with 90.
  unfold set_matches, existsb, item_matches, letter. cbn [andb].
  rewrite orb_false_r. apply eq_iff_eq_true.
  destruct (fold_case_spec c) as [[H E]|[[H E]|[[H E]|[[H E]|H]]]];
    [| | | |destruct H as (H1 & H2 & H3 & H4 & H5 & E)]; rewrite E;
    match goal with
    | |- context [to_upper ?x] =>
      destruct (to_upper_spec x) as [[U ->]|[U ->]]
    end; to_props; lia.
Qed.

Lemma decimal_bounds c :
  is_decimal c = true -> 48 <= c <= 57 \/ (1632 <= c /\ c <> 8490).
Proof.
  unfold is_decimal, in_ranges. intros H. apply existsb_exists in H.
  destruct H as ([lo hi] & Hin & Hc). cbn [fst snd] in Hc.
  assert (T : forallb (fun r => ((fst r =? 48) && (snd r =? 57)) ||
                                ((1632 <=? fst r) &&
                                 ((snd r <? 8490) || (8490 <? fst r))))
                unicode_decimal = true) by (vm_compute; reflexivity).
  rewrite forallb_forall in T. specialize (T _ Hin). cbn [fst snd] in T.
  unfold in_range in Hc. apply andb_true_iff in Hc. destruct Hc as [H1 H2].
  apply N.leb_le in H1, H2.
  apply orb_true_iff in T. destruct T as [T|T];
    apply andb_true_iff in T; destruct T as [T1 T2].
  - apply N.eqb_eq in T1, T2. lia.
  - apply N.leb_le in T1. apply orb_true_iff in T2.
    destruct T2 as [T2|T2]; apply N.ltb_lt in T2; lia.
Qed.

Lemma decimal_not_letter c : is_decimal c = true -> letter c = false.
Proof.
  intros H. apply decimal_bounds in H. unfold letter.
  apply not_true_is_false. to_props. lia.
Qed.

Lemma set_digit_any ic c : set_matches ic [CatDigit] c = is_decimal c.
Proof. unfold set_matches, existsb, item_matches. apply orb_false_r. Qed.

Lemma invoice_number_re_nodes :
  invoice_number_re =
  [GroupOpen; Repeat 3 (Some 5%nat) [Rng (chr "A") (chr "Z")];
   Repeat 6 (Some 8%nat) [CatDigit]; GroupClose].
Proof. reflexivity. Qed.

Lemma run_invoice_number_complete pos prev s n :
  invoice_number_at s n ->
  exists x post e,
    s = x ++ n ++ post /\
    run true invoice_number_re pos prev s None None
    = Some (mkMatch e (Some (pos + List.length x)%nat)
              (Some (pos + List.length x + List.length n)%nat)).
Proof.
  intros (ls & ds & post & -> & -> & Hls & Hl & Hds & Hd & Hmax).
  exists [], post, (pos + List.length (ls ++ ds))%nat.
  split; [reflexivity|].
  rewrite invoice_number_re_nodes. cbn [run List.length].
  rewrite <- app_assoc. apply repeat_one_greedy.
  - rewrite (forallb_ext_eq _ _ ls set_letter). exact Hls.
  - lia.
  - intros h Eh; injection Eh as <-. lia.
  - right. destruct ds as [|d ds]; [cbn [List.length] in Hd; lia|].
    cbn [app forallb] in *. rewrite set_letter.
    apply andb_true_iff in Hds. apply decimal_not_letter, Hds.
  - cbn [run]. apply repeat_one_greedy.
    + rewrite (forallb_ext_eq _ _ ds (set_digit_any true)). exact Hds.
    + lia.
    + intros h Eh; injection Eh as <-. lia.
    + destruct Hmax as [->|Hmax]; [left; reflexivity|right].
      destruct post; [exact I|]. rewrite set_digit_any. exact Hmax.
    + cbn [run]. rewrite length_app, Nat.add_0_r. f_equal. f_equal.
      * lia.
      * f_equal. lia.
Qed.

(** A run of digits can be followed to its end, or to the count of eight. *)
Lemma extend_digits (post ds : str) :
  forallb is_decimal ds = true -> (List.length ds <= 8)%nat ->
  exists ds' post',
    ds ++ post = ds' ++ post' /\ forallb is_decimal ds' = true /\
    (List.length ds <= List.length ds' <= 8)%nat /\
    (List.length ds' = 8%nat \/
     match post' with [] => True | c :: _ => is_decimal c = false end).
Proof.
  revert ds. induction post as [|c post IH]; intros ds Hds Hlen.
  - exists ds, []. repeat split; auto.
  - destruct (Nat.eq_dec (List.length ds) 8) as [E|E].
    + exists ds, (c :: post). repeat split; auto; lia.
    + destruct (is_decimal c) eqn:Hc.
      * destruct (IH (ds ++ [c])) as (ds' & post' & E' & Hds' & Hl & Hmax).
        -- rewrite forallb_app, Hds. cbn [forallb]. now rewrite Hc.
        -- rewrite length_app. cbn [List.length]. lia.
        -- exists ds', post'. rewrite <- E', <- app_assoc.
           rewrite length_app in Hl. cbn [List.length] in Hl.
           repeat split; auto; lia.
      * exists ds, (c :: post). repeat split; auto.
Qed.

Lemma run_invoice_number_sound pos prev s m :
  run true invoice_number_re pos prev s None None = Some m ->
  exists n, invoice_number_at s n.
Proof.
  rewrite invoice_number_re_nodes. cbn [run]. intros H.
  apply repeat_one_sound in H.
  destruct H as (ls & s1 & -> & Hls & Hlo & Hhi & H).
  cbn [run] in H. apply repeat_one_sound in H.
  destruct H as (ds & post & -> & Hds & Hlo2 & Hhi2 & _).
  specialize (Hhi 5%nat eq_refl). specialize (Hhi2 8%nat eq_refl).
  rewrite (forallb_ext_eq _ _ ls set_letter) in Hls.
  rewrite (forallb_ext_eq _ _ ds (set_digit_any true)) in Hds.
  destruct (extend_digits post ds Hds Hhi2)
    as (ds' & post' & E & Hds' & Hl & Hmax).
  exists (ls ++ ds'), ls, ds', post'. rewrite E, <- app_assoc.
  repeat split; auto; lia.
Qed.

(** X4. The invoice number is found at the first place of the text where
    three to five letters are followed at once by six digits or more: it is
    those letters and up to eight of the digits, as many as there are; a
    letter is an ASCII letter in either case, U+0130, U+0131, U+017F or
    U+212A.  When there is no such place it is [Unknown]. *)
Theorem invoice_number_is_first_match (text : str) :
  exists f,
    extract_invoice_data text = Ok f /\
    (forall n, first_at invoice_number_at text n -> invoice_number f = n) /\
    ((forall n, ~ first_at invoice_number_at text n) ->
     invoice_number f = Unknown) /\
    (first_at invoice_number_at text (invoice_number f) \/
     (invoice_number f = Unknown /\
      forall n, ~ first_at invoice_number_at text n)).
Proof.
  destruct (extract_fields text) as (n & a & d & -> & Hn & _).
  eexists; split; [reflexivity|]. cbn [invoice_number].
  apply (field_is_first_match true invoice_number_re); auto.
  - intros pos prev s n0. apply run_invoice_number_complete.
  - intros pos prev s m. apply run_invoice_number_sound.
Qed.

Lemma ascii_fold_spec c :
  (65 <= c <= 90 /\ ascii_fold c = c + 32) \/
  (~ 65 <= c <= 90 /\ ascii_fold c = c).
Proof.
  unfold ascii_fold, in_range.
  destruct (N.leb_spec 65 c); destruct (N.leb_spec c 90); cbn [andb];
    try (left; lia); right; lia.
Qed.

(** For an ASCII letter other than i, s and k, [re.IGNORECASE] takes its
    upper and its lower case and nothing else. *)
Lemma ignorecase_is_same_letter x c :
  x < 128 -> fold_case x <> 105 -> fold_case x <> 115 ->
  fold_case x <> 107 ->
  same_letter_ignorecase x c -> same_letter x c.
Proof.
  unfold same_letter_ignorecase, same_letter. intros Hx H1 H2 H3.
  destruct (fold_case_spec x)
    as [[? Ex]|[[? Ex]|[[? Ex]|[[? Ex]|(?&?&?&?&?&Ex)]]]];
    rewrite Ex in *; try lia;
    destruct (fold_case_spec c)
      as [[? Ec]|[[? Ec]|[[? Ec]|[[? Ec]|(?&?&?&?&?&Ec)]]]];
    rewrite Ec; try lia;
    destruct (ascii_fold_spec x) as [[? ->]|[? ->]];
    destruct (ascii_fold_spec c) as [[? ->]|[? ->]];
    lia.
Qed.

Lemma set_colon_space c :
  set_matches true [Chr (chr ":"); CatSpace] c = colon_or_space c.
Proof.
  change (chr ":") with 58.
  unfold set_matches, existsb, item_matches, colon_or_space.
  rewrite orb_false_r. f_equal. change (fold_case 58) with 58.
  apply eq_iff_eq_true. rewrite !N.eqb_eq.
  destruct (fold_case_spec c) as [[? ->]|[[? ->]|[[? ->]|[[? ->]|H]]]];
    lia.
Qed.

Lemma colon_or_space_not_decimal c :
  colon_or_space c = true -> is_decimal c = false.
Proof.
  unfold colon_or_space. intros H. apply orb_true_iff in H.
  destruct H as [H|H].
  - apply N.eqb_eq in H. subst c. reflexivity.
  - apply space_not_digit_or_comma in H. unfold digit_or_comma in H.
    now apply orb_false_iff in H.
Qed.

Lemma due_date_re_nodes :
  due_date_re =
  [Single [Chr 68]; Single [Chr 117]; Single [Chr 101]; Single [Chr 32];
   Single [Chr 68]; Single [Chr 97]; Single [Chr 116]; Single [Chr 101];
   Repeat 0 None [Chr (chr ":"); CatSpace]; GroupOpen;
   Repeat 2 (Some 2%nat) [CatDigit]; Single [Chr 47];
   Repeat 2 (Some 2%nat) [CatDigit]; Single [Chr 47];
   Repeat 4 (Some 4%nat) [CatDigit]; GroupClose].
Proof. reflexivity. Qed.

(** One literal of a pattern read. *)
Lemma run_literal ic x p pos prev s gs ge m :
  run ic (Single [Chr x] :: p) pos prev s gs ge = Some m ->
  exists c s',
    s = c :: s' /\ set_matches ic [Chr x] c = true /\
    run ic p (S pos) (Some c) s' gs ge = Some m.
Proof.
  cbn [run]. destruct s as [|c s']; [discriminate|].
  destruct (set_matches ic [Chr x] c) eqn:E; [|discriminate].
  intros H. exists c, s'. auto.
Qed.

Lemma run_literal_here ic x p pos prev c s gs ge :
  set_matches ic [Chr x] c = true ->
  run ic (Single [Chr x] :: p) pos prev (c :: s) gs ge
  = run ic p (S pos) (Some c) s gs ge.
Proof. cbn [run]. now intros ->. Qed.

(** A repeat with its two bounds equal reads that many characters. *)
Lemma exact_repeat ic cs cont r s k pos prev m :
  List.length r = k -> forallb (set_matches ic cs) r = true ->
  cont (pos + k)%nat (last_char prev r) s = Some m ->
  repeat_one ic cs k (Some k) cont pos prev (r ++ s) = Some m.
Proof.
  intros <- Hr Hk. apply repeat_one_greedy; auto.
  intros h E. injection E as <-. lia.
Qed.

Lemma exact_repeat_sound ic cs cont s k pos prev m :
  repeat_one ic cs k (Some k) cont pos prev s = Some m ->
  exists r s',
    s = r ++ s' /\ List.length r = k /\
    forallb (set_matches ic cs) r = true /\
    cont (pos + k)%nat (last_char prev r) s' = Some m.
Proof.
  intros H. apply repeat_one_sound in H.
  destruct H as (r & s' & -> & Hr & Hlo & Hhi & H).
  specialize (Hhi k eq_refl).
  assert (E : List.length r = k) by lia.
  exists r, s'. rewrite <- E at 2. auto.
Qed.

Lemma slash_only c : set_matches true [Chr 47] c = true -> c = 47.
Proof.
  intros H. apply literal_ignorecase in H.
  apply ignorecase_is_same_letter in H;
    [|reflexivity | discriminate | discriminate | discriminate].
  unfold same_letter in H. change (ascii_fold 47) with 47 in H.
  destruct (ascii_fold_spec c) as [[? E]|[? E]]; rewrite E in H; lia.
Qed.

Ltac label_letter H :=
  apply literal_ignorecase in H;
  apply ignorecase_is_same_letter in H;
  [|reflexivity | discriminate | discriminate | discriminate].

Lemma run_due_date_complete pos prev s n :
  due_date_at s n ->
  exists x post e,
    s = x ++ n ++ post /\
    run true due_date_re pos prev s None None
    = Some (mkMatch e (Some (pos + List.length x)%nat)
              (Some (pos + List.length x + List.length n)%nat)).
Proof.
  intros (label & seps & d1 & d2 & d3 & d4 & d5 & d6 & d7 & d8 & post
          & -> & Hl & Hs & -> & Hd).
  exists (label ++ seps), post,
    (pos + List.length (label ++ seps) + 10)%nat.
  split; [now rewrite <- app_assoc|].
  change (py "Due Date") with [68; 117; 101; 32; 68; 97; 116; 101] in Hl.
  repeat match goal with
  | H : Forall2 _ (_ :: _) _ |- _ => inversion H; subst; clear H
  | H : Forall2 _ [] _ |- _ => inversion H; subst; clear H
  end.
  repeat match goal with
  | H : same_letter ?x ?c |- _ =>
    apply (same_letter_is_ignorecase x c) in H;
    [apply literal_ignorecase in H | reflexivity]
  end.
  rewrite due_date_re_nodes. cbn [app].
  rewrite !run_literal_here by assumption.
  cbn [forallb] in Hd. rewrite !andb_true_iff in Hd.
  destruct Hd as (D1 & D2 & D3 & D4 & D5 & D6 & D7 & D8 & _).
  cbn [run]. apply repeat_one_greedy.
  - rewrite (forallb_ext_eq _ _ seps set_colon_space). exact Hs.
  - lia.
  - discriminate.
  - right. rewrite set_colon_space.
    destruct (colon_or_space d1) eqn:E; [|reflexivity].
    apply colon_or_space_not_decimal in E. congruence.
  - cbn [run].
    apply (exact_repeat true [CatDigit] _ [d1; d2]);
      [reflexivity | cbn [forallb]; now rewrite !set_digit_any, D1, D2 |].
    cbn [run last_char fold_left].
    change (set_matches true [Chr 47] 47) with true. cbv iota.
    apply (exact_repeat true [CatDigit] _ [d3; d4]);
      [reflexivity | cbn [forallb]; now rewrite !set_digit_any, D3, D4 |].
    cbn [run last_char fold_left].
    change (set_matches true [Chr 47] 47) with true. cbv iota.
    apply (exact_repeat true [CatDigit] _ [d5; d6; d7; d8]);
      [reflexivity
      | cbn [forallb]; now rewrite !set_digit_any, D5, D6, D7, D8 |].
    cbn [run List.length app]. rewrite ?length_app.
    f_equal. f_equal; [lia | f_equal; lia | f_equal; lia].
Qed.

Lemma run_due_date_sound pos prev s m :
  run true due_date_re pos prev s None None = Some m ->
  exists n, due_date_at s n.
Proof.
  rewrite due_date_re_nodes. intros H.
  apply run_literal in H. destruct H as (l1 & s1 & -> & L1 & H).
  apply run_literal in H. destruct H as (l2 & s2 & -> & L2 & H).
  apply run_literal in H. destruct H as (l3 & s3 & -> & L3 & H).
  apply run_literal in H. destruct H as (l4 & s4 & -> & L4 & H).
  apply run_literal in H. destruct H as (l5 & s5 & -> & L5 & H).
  apply run_literal in H. destruct H as (l6 & s6 & -> & L6 & H).
  apply run_literal in H. destruct H as (l7 & s7 & -> & L7 & H).
  apply run_literal in H. destruct H as (l8 & s8 & -> & L8 & H).
  label_letter L1. label_letter L2. label_letter L3. label_letter L4.
  label_letter L5. label_letter L6. label_letter L7. label_letter L8.
  cbn [run] in H. apply repeat_one_sound in H.
  destruct H as (seps & s9 & -> & Hseps & _ & _ & H).
  rewrite (forallb_ext_eq _ _ seps set_colon_space) in Hseps.
  cbn [run] in H. apply exact_repeat_sound in H.
  destruct H as (r1 & s10 & -> & E1 & R1 & H).
  cbn beta in H. destruct s10 as [|c1 s11]; [discriminate|].
  destruct (set_matches true [Chr 47] c1) eqn:C1; [|discriminate].
  apply slash_only in C1. subst c1.
  apply exact_repeat_sound in H.
  destruct H as (r2 & s12 & -> & E2 & R2 & H).
  cbn beta in H. destruct s12 as [|c2 s13]; [discriminate|].
  destruct (set_matches true [Chr 47] c2) eqn:C2; [|discriminate].
  apply slash_only in C2. subst c2.
  apply exact_repeat_sound in H.
  destruct H as (r3 & post & -> & E3 & R3 & _).
  rewrite (forallb_ext_eq _ _ r1 (set_digit_any true)) in R1.
  rewrite (forallb_ext_eq _ _ r2 (set_digit_any true)) in R2.
  rewrite (forallb_ext_eq _ _ r3 (set_digit_any true)) in R3.
  destruct r1 as [|d1 [|d2 [|? ?]]]; try discriminate.
  destruct r2 as [|d3 [|d4 [|? ?]]]; try discriminate.
  destruct r3 as [|d5 [|d6 [|d7 [|d8 [|? ?]]]]]; try discriminate.
  cbn [forallb] in R1, R2, R3.
  repeat match goal with
  | R : _ && _ = true |- _ => apply andb_true_iff in R; destruct R
  end.
  exists [d1; d2; 47; d3; d4; 47; d5; d6; d7; d8],
    [l1; l2; l3; l4; l5; l6; l7; l8], seps, d1, d2, d3, d4, d5, d6, d7, d8,
    post.
  split; [reflexivity|]. split.
  - change (py "Due Date") with [68; 117; 101; 32; 68; 97; 116; 101].
    repeat constructor; assumption.
  - split; [exact Hseps|]. split; [reflexivity|].
    cbn [forallb]. rewrite !andb_true_iff. repeat split; assumption.
Qed.

(** X5. The due date is found at the first place of the text where the
    label Due Date, in upper or lower case letters, is followed by any
    number of colons and white space characters and then by two digits, a
    slash, two digits, a slash and four digits; it is those ten characters,
    whatever day and month the digits spell.  When there is no such place
    it is [Unknown]. *)
Theorem due_date_is_first_match (text : str) :
  exists f,
    extract_invoice_data text = Ok f /\
    (forall n, first_at due_date_at text n -> due_date f = n) /\
    ((forall n, ~ first_at due_date_at text n) -> due_date f = Unknown) /\
    (first_at due_date_at text (due_date f) \/
     (due_date f = Unknown /\ forall n, ~ first_at due_date_at text n)).
Proof.
  destruct (extract_fields text) as (n & a & d & -> & _ & _ & Hd).
  eexists; split; [reflexivity|]. cbn [due_date].
  apply (field_is_first_match true due_date_re); auto.
  - intros pos prev s n0. apply run_due_date_complete.
  - intros pos prev s m. apply run_due_date_sound.
Qed.

(** * Attachments and their text *)














Lemma save_attachments_step (folder : str) p rest acc fs :
  save_attachments (p :: rest) folder acc fs =
  match saved_as folder p with
  | None => save_attachments rest folder acc fs
  | Some path =>
    if can_write path then
      match get_payload p with
      | Some content =>
        save_attachments rest folder (acc ++ [path]) (dict_set path content fs)
      | None => (None, dict_set path [] fs)
      end
    else (None, fs)
  end.
Proof.
  cbn [save_attachments]. unfold saved_as.
  destruct (nonempty (content_disposition p)); [|reflexivity].
  destruct (get_filename p) as [filename|]; [|reflexivity].
  destruct (nonempty (Some filename)
            && endswith_any (lower filename) invoice_extensions);
    reflexivity.
Qed.



Lemma save_attachments_result (folder : str) (parts : list part) :
  forall acc fs,
    fst (save_attachments parts folder acc fs)
    = if all_saved folder parts
      then Some (acc ++ saved_paths folder parts) else None.
Proof.
  unfold all_saved, saved_paths.
  induction parts as [|p parts IH]; intros acc fs.
  - cbn. now rewrite app_nil_r.
  - rewrite save_attachments_step. cbn [forallb flat_map].
    destruct (saved_as folder p) as [path|]; [|apply IH].
    destruct (can_write path); [|reflexivity].
    destruct (get_payload p) as [content|]; [|reflexivity].
    cbn [truthy andb]. rewrite IH.
    destruct (forallb _ parts); [|reflexivity].
    now rewrite <- app_assoc.
Qed.

(** X8. What [process_email] returns does not depend on the files on disk:
    it is a record exactly when the fetch is OK, the subject decodes, at
    least one part is to be saved and every such part can be; the record
    then has the sender of the From header, or Unknown, and the paths of
    the saved parts. *)
Theorem process_email_returns (uid : str) (msg : fetched) (folder : str)
    (fs : filesystem) :
  fst (process_email uid (Some msg) folder fs) =
  if str_eqb (fetch_result msg) (py "OK") && all_saved folder (walk msg)
  then
    match decoded_subject msg, saved_paths folder (walk msg) with
    | Some subject, path :: paths =>
      Some (mkMetadata uid
              (match header_from msg with
               | Some v => v
               | None => py "Unknown"
               end)
              subject (path :: paths))
    | _, _ => None
    end
  else None.
Proof.
  unfold process_email.
  destruct (str_eqb (fetch_result msg) (py "OK")); cbn [negb andb];
    [|reflexivity].
  pose proof (save_attachments_result folder (walk msg) [] fs) as H.
  destruct (save_attachments (walk msg) folder [] fs) as [r fs1].
  cbn [fst app] in H. subst r.
  destruct (decoded_subject msg) as [subject|];
    destruct (all_saved folder (walk msg)); try reflexivity.
  all: destruct (saved_paths folder (walk msg)); reflexivity.
Qed.

(** * The loop of [main] *)

Lemma main_loop_unfold uid fetch rest st :
  main_loop ((uid, fetch) :: rest) st =
  match message_record uid fetch (files st) with
  | (None, fs) =>
    main_loop rest
      (mkProgress (extracted_invoices st) fs (database st) (events st))
  | (Some (inl i), fs) =>
    (Some i, mkProgress (extracted_invoices st) fs (database st) (events st))
  | (Some (inr d), fs) =>
    match dispatch (database st) d with
    | (Raise e, w, l) =>
      (Some (Raised e),
       mkProgress (extracted_invoices st) fs w (events st ++ l))
    | (Ok _, w, l) =>
      main_loop rest
        (mkProgress (extracted_invoices st ++ [d]) fs w (events st ++ l))
    end
  end.
Proof.
  cbn [main_loop]. unfold message_record, dispatch.
  destruct (process_email uid fetch (py "Invoices") (files st))
    as [[email_data|] fs]; [|reflexivity].
  destruct (extract_text_from_attachments _ fs []) as [texts|];
    [|reflexivity].
  destruct (extract_invoice_data _); reflexivity.
Qed.

(** What a call leaves in the two collections. *)
Lemma store_cases (w : world) (d : document) :
  (outcome w d = Raise LookupFailure /\
   invoices (world_after w d) = invoices w /\
   recurring_invoices (world_after w d) = recurring_invoices w) \/
  (outcome w d = Ok tt /\
   ((invoices (world_after w d) = invoices w /\
     recurring_invoices (world_after w d) = recurring_invoices w) \/
    (invoices (world_after w d) = invoices w /\
     recurring_invoices (world_after w d) = recurring_invoices w ++ [d]) \/
    (invoices (world_after w d) = invoices w ++ [d] /\
     recurring_invoices (world_after w d) = recurring_invoices w))).
Proof.
  dispatch_paths w d; cbn [ret]; auto 6.
Qed.

(** One turn of the loop: it stops or goes on, the files apart, from a state
    that differs by at most one call of [store_in_mongo]. *)
Lemma main_loop_turn uid fetch rest st :
  exists st1,
    (main_loop ((uid, fetch) :: rest) st = main_loop rest st1 \/
     exists i, main_loop ((uid, fetch) :: rest) st = (Some i, st1)) /\
    ((extracted_invoices st1 = extracted_invoices st /\
      invoices (database st1) = invoices (database st) /\
      recurring_invoices (database st1) = recurring_invoices (database st))
     \/
     exists d,
       extracted_invoices st1 = extracted_invoices st ++ [d] /\
       database st1 = world_after (database st) d /\
       outcome (database st) d = Ok tt).
Proof.
  rewrite main_loop_unfold.
  destruct (message_record uid fetch (files st)) as [[[i|d]|] fs].
  - eexists. split; [right; eauto|]. left. cbn. auto.
  - pose proof (store_cases (database st) d) as Hc.
    unfold outcome, world_after in *.
    destruct (dispatch (database st) d) as [[[u|e] w] l] eqn:E;
      cbn [fst snd] in *.
    + eexists. split; [left; reflexivity|]. right. exists d.
      unfold world_after, outcome. rewrite E. cbn. destruct u. auto.
    + eexists. split; [right; eauto|]. left. cbn.
      destruct Hc as [(_ & Hc)|(Hc & _)]; [auto | discriminate].
  - eexists. split; [left; reflexivity|]. left. cbn. auto.
Qed.

Lemma extends_refl {A} (l : list A) : extends l l.
Proof. exists []. now rewrite app_nil_r. Qed.

Lemma extends_trans {A} (l1 l2 l3 : list A) :
  extends l1 l2 -> extends l2 l3 -> extends l1 l3.
Proof.
  intros [a ->] [b ->]. exists (a ++ b). now rewrite app_assoc.
Qed.

Lemma extends_one {A} (l : list A) (x : A) : extends l (l ++ [x]).
Proof. now exists [x]. Qed.

Lemma extends_eq {A} (l l' : list A) : l' = l -> extends l l'.
Proof. intros ->. apply extends_refl. Qed.

Lemma extends_in {A} (l l' : list A) (x : A) :
  extends l l' -> In x l -> In x l'.
Proof. intros [a ->] H. apply in_or_app. now left. Qed.

Lemma main_loop_grows (inbox : list (str * option fetched)) :
  forall st,
    extends (extracted_invoices st)
      (extracted_invoices (snd (main_loop inbox st))) /\
    extends (invoices (database st))
      (invoices (database (snd (main_loop inbox st)))) /\
    extends (recurring_invoices (database st))
      (recurring_invoices (database (snd (main_loop inbox st)))) /\
    (forall d,
       In d (invoices (database (snd (main_loop inbox st)))) \/
       In d (recurring_invoices (database (snd (main_loop inbox st)))) ->
       In d (invoices (database st)) \/
       In d (recurring_invoices (database st)) \/
       In d (extracted_invoices (snd (main_loop inbox st)))).
Proof.
  induction inbox as [|[uid fetch] rest IH]; intros st.
  - cbn [main_loop snd]. repeat split; try apply extends_refl. tauto.
  - destruct (main_loop_turn uid fetch rest st) as (st1 & Hgo & Hrel).
    assert (Hst1 :
      extends (extracted_invoices st) (extracted_invoices st1) /\
      extends (invoices (database st)) (invoices (database st1)) /\
      extends (recurring_invoices (database st))
        (recurring_invoices (database st1)) /\
      (forall d,
         In d (invoices (database st1)) \/
         In d (recurring_invoices (database st1)) ->
         In d (invoices (database st)) \/
         In d (recurring_invoices (database st)) \/
         In d (extracted_invoices st1))).
    { destruct Hrel as [(E1 & E2 & E3)|(d & E1 & E2 & E3)].
      - rewrite E1, E2, E3. repeat split; try apply extends_refl. tauto.
      - rewrite E1, E2.
        destruct (store_cases (database st) d)
          as [(Hr & _)|(_ & [(Ei & Er)|[(Ei & Er)|(Ei & Er)]])];
          [congruence| | |]; rewrite Ei, Er;
          repeat split;
          try apply extends_refl; try apply extends_one;
          intros x [Hx|Hx]; auto;
          apply in_app_or in Hx; destruct Hx as [Hx|[<-|[]]]; auto;
          right; right; apply in_or_app; right; left; reflexivity. }
    destruct Hst1 as (G1 & G2 & G3 & G4).
    destruct Hgo as [->|(i & ->)]; cbn [snd]; [|auto].
    destruct (IH st1) as (H1 & H2 & H3 & H4).
    repeat split; try (eapply extends_trans; eassumption).
    intros x Hx. apply H4 in Hx. destruct Hx as [Hx|[Hx|Hx]]; auto.
    + destruct (G4 x (or_introl Hx)) as [?|[?|Hr]]; auto.
      right; right. eapply extends_in; eassumption.
    + destruct (G4 x (or_intror Hx)) as [?|[?|Hr]]; auto.
      right; right. eapply extends_in; eassumption.
Qed.

(** X9. The loop of [main] only adds: whether it runs to its end or is
    interrupted, the report and both collections are what they were with
    something appended, and every record found in a collection afterwards
    was there before or is in the report. *)
Theorem main_loop_only_adds (inbox : list (str * option fetched))
    (st : progress) :
  extends (extracted_invoices st)
    (extracted_invoices (snd (main_loop inbox st))) /\
  extends (invoices (database st))
    (invoices (database (snd (main_loop inbox st)))) /\
  extends (recurring_invoices (database st))
    (recurring_invoices (database (snd (main_loop inbox st)))) /\
  (forall d,
     In d (invoices (database (snd (main_loop inbox st)))) \/
     In d (recurring_invoices (database (snd (main_loop inbox st)))) ->
     In d (invoices (database st)) \/
     In d (recurring_invoices (database st)) \/
     In d (extracted_invoices (snd (main_loop inbox st)))).
Proof. apply main_loop_grows. Qed.



(** ** The record of a message does not depend on the disk *)









(** ** Running [main] again *)






(** * The text of several attachments *)

Lemma app_split {A} (a b c d : list A) :
  a ++ b = c ++ d ->
  (exists x, a = c ++ x /\ d = x ++ b) \/
  (exists y, c = a ++ y /\ b = y ++ d).
Proof.
  revert c. induction a as [|h a IH]; intros c E.
  - right. exists c. auto.
  - destruct c as [|h' c].
    + left. exists (h :: a). auto.
    + injection E as <- E. destruct (IH c E) as [(x & -> & ->)|(y & -> & ->)].
      * left. exists x. auto.
      * right. exists y. auto.
Qed.

Lemma prefix_before_separator (n post' s J : str) (c : N) :
  n ++ post' = s ++ c :: J -> ~ In c n ->
  exists post, s = n ++ post /\ post' = post ++ c :: J.
Proof.
  revert s. induction n as [|x n IH]; intros s E Hc.
  - exists s. auto.
  - destruct s as [|y s].
    + injection E as -> _. exfalso. apply Hc. left. reflexivity.
    + injection E as <- E. destruct (IH s E) as (post & -> & ->).
      * intros H. apply Hc. right. exact H.
      * exists post. auto.
Qed.

Lemma search_from_none_everywhere ic p :
  forall s pos prev,
    search_from ic p pos prev s = None ->
    forall pre s1, s = pre ++ s1 ->
      run ic p (pos + List.length pre)%nat (last_char prev pre) s1 None None
      = None.
Proof.
  induction s as [|c s IH]; intros pos prev H pre s1 E;
    cbn [search_from] in H;
    destruct (run ic p pos prev _ None None) eqn:R; try discriminate.
  - destruct pre; [|discriminate]. cbn [app] in E. subst s1.
    cbn [List.length last_char fold_left]. now rewrite Nat.add_0_r.
  - destruct pre as [|x pre].
    + cbn [app] in E. subst s1.
      cbn [List.length last_char fold_left]. now rewrite Nat.add_0_r.
    + injection E as <- ->. cbn [List.length last_char fold_left].
      rewrite <- (IH (S pos) (Some c) H pre s1 eq_refl). f_equal. lia.
Qed.

Lemma space_not_in_invoice_number (s n : str) :
  invoice_number_at s n -> ~ In 32 n.
Proof.
  intros (ls & ds & post & _ & -> & Hls & _ & Hds & _) H.
  rewrite forallb_forall in Hls, Hds.
  apply in_app_or in H. destruct H as [H|H].
  - specialize (Hls _ H). discriminate.
  - specialize (Hds _ H). discriminate.
Qed.

(** Whether an invoice number stands at a place of a text is not changed by
    a space and more text put after the text. *)
Lemma invoice_number_at_before_space (s J n : str) :
  invoice_number_at (s ++ 32 :: J) n <-> invoice_number_at s n.
Proof.
  split.
  - intros H. pose proof (space_not_in_invoice_number _ _ H) as Hsp.
    destruct H as (ls & ds & post' & E & -> & Hls & Hl & Hds & Hd & Hmax).
    symmetry in E.
    destruct (prefix_before_separator _ _ _ _ _ E Hsp) as (post & -> & ->).
    exists ls, ds, post. repeat split; auto; try lia.
    destruct Hmax as [Hmax|Hmax]; [left; exact Hmax|right].
    destruct post; [exact I | exact Hmax].
  - intros (ls & ds & post & -> & -> & Hls & Hl & Hds & Hd & Hmax).
    exists ls, ds, (post ++ 32 :: J). rewrite <- app_assoc.
    repeat split; auto; try lia.
    destruct Hmax as [Hmax|Hmax]; [left; exact Hmax|right].
    destruct post; [reflexivity | exact Hmax].
Qed.

Lemma invoice_number_not_unknown (s n : str) :
  invoice_number_at s n -> n <> Unknown.
Proof.
  intros (ls & ds & post & _ & -> & _ & Hl & _ & Hd & _) E.
  apply (f_equal (@List.length N)) in E. rewrite length_app in E.
  change (List.length Unknown) with 7%nat in E. lia.
Qed.

(** The invoice number found in a text, and the places of the text. *)
Lemma invoice_number_in_spec (text : str) :
  (first_at invoice_number_at text (invoice_number_in text) /\
   invoice_number_in text <> Unknown) \/
  (invoice_number_in text = Unknown /\
   forall pre s n, text = pre ++ s -> ~ invoice_number_at s n).
Proof.
  unfold invoice_number_in.
  destruct (extract_fields text) as (n & a & d & -> & Hn & _).
  cbn [invoice_number].
  destruct (re_search invoice_number_re text true) as [m|] eqn:E.
  - left.
    destruct (field_is_first_match true invoice_number_re invoice_number_at
                text n) as (_ & _ & [H|[H1 H2]]).
    + intros pos prev s n0. apply run_invoice_number_complete.
    + intros pos prev s m0. apply run_invoice_number_sound.
    + now rewrite E.
    + split; [exact H|]. destruct H as (pre & s & _ & Hat & _).
      eapply invoice_number_not_unknown; eassumption.
    + exfalso. unfold re_search in E. apply search_from_found in E.
      destruct E as (pre & s1 & -> & Hrun & Hnone).
      apply run_invoice_number_sound in Hrun. destruct Hrun as (n1 & Hat).
      apply (H2 n1). exists pre, s1. repeat split; auto.
      intros pre1 s' -> Hs' n2 Hat2. destruct s' as [|c pre2]; [congruence|].
      destruct (run_invoice_number_complete
                  (0 + List.length pre1) (last_char None pre1) _ n2 Hat2)
        as (x & post & e & _ & Hrun). cbn [app] in Hrun.
      rewrite (Hnone pre1 c pre2 eq_refl) in Hrun. discriminate.
  - right. cbn [field_of] in Hn. split; [exact Hn|].
    intros pre s n1 -> Hat.
    destruct (run_invoice_number_complete
                (0 + List.length pre) (last_char None pre) s n1 Hat)
      as (x & post & e & _ & Hrun).
    unfold re_search in E.
    rewrite (search_from_none_everywhere _ _ _ _ _ E pre s eq_refl) in Hrun.
    discriminate.
Qed.

Lemma invoice_number_in_first (text n : str) :
  first_at invoice_number_at text n -> invoice_number_in text = n.
Proof.
  intros H. unfold invoice_number_in.
  destruct (extract_fields text) as (n0 & a & d & -> & Hn & _).
  cbn [invoice_number].
  destruct (field_is_first_match true invoice_number_re invoice_number_at
              text n0) as (H1 & _); auto.
  - intros pos prev s n1. apply run_invoice_number_complete.
  - intros pos prev s m0. apply run_invoice_number_sound.
Qed.

Lemma invoice_number_in_none (text : str) :
  (forall pre s n, text = pre ++ s -> ~ invoice_number_at s n) ->
  invoice_number_in text = Unknown.
Proof.
  intros H. destruct (invoice_number_in_spec text) as [[Hf _]|[E _]];
    [|exact E].
  destruct Hf as (pre & s & E & Hat & _). exfalso. eapply H; eassumption.
Qed.

Lemma invoice_number_in_joined (t J : str) :
  invoice_number_in (t ++ 32 :: J) =
  if negb (str_eqb (invoice_number_in t) Unknown)
  then invoice_number_in t else invoice_number_in J.
Proof.
  destruct (invoice_number_in_spec t) as [[Hf Hk]|[Hu Hnone]].
  - apply str_eqb_neq in Hk. rewrite Hk. cbn [negb].
    apply invoice_number_in_first.
    destruct Hf as (pre & s & -> & Hat & Hfirst).
    exists pre, (s ++ 32 :: J). rewrite <- app_assoc.
    split; [reflexivity|]. split.
    + now apply invoice_number_at_before_space.
    + intros pre1 s1 E Hs1 n1 Hat1. rewrite app_assoc in Hat1.
      apply invoice_number_at_before_space in Hat1.
      exact (Hfirst pre1 s1 E Hs1 n1 Hat1).
  - rewrite Hu. change (negb (str_eqb Unknown Unknown)) with false.
    cbv iota.
    assert (Hin_t : forall pre1 x n1, t = pre1 ++ x ->
                      ~ invoice_number_at (x ++ 32 :: J) n1).
    { intros pre1 x n1 E Hat. apply invoice_number_at_before_space in Hat.
      exact (Hnone pre1 x n1 E Hat). }
    destruct (invoice_number_in_spec J) as [[Hf Hk]|[HuJ HnoneJ]].
    + apply invoice_number_in_first.
      destruct Hf as (pre & s & -> & Hat & Hfirst).
      exists (t ++ 32 :: pre), s. rewrite <- app_assoc.
      split; [reflexivity|]. split; [exact Hat|].
      intros pre1 s1 E Hs1 n1 Hat1.
      destruct (app_split _ _ _ _ E) as [(x & -> & ->)|(y & -> & E2)].
      * rewrite <- app_assoc in Hat1. cbn [app] in Hat1.
        exact (Hin_t pre1 x n1 eq_refl Hat1).
      * destruct y as [|c y].
        -- cbn [app] in E2. subst s1. cbn [app] in Hat1. exact (Hin_t t [] n1 (eq_sym (app_nil_r t)) Hat1).
        -- injection E2 as <- ->.
           exact (Hfirst y s1 eq_refl Hs1 n1 Hat1).
    + rewrite HuJ. apply invoice_number_in_none.
      intros pre s n1 E Hat.
      destruct (app_split _ _ _ _ E) as [(x & -> & ->)|(y & -> & E2)].
      * exact (Hin_t pre x n1 eq_refl Hat).
      * destruct y as [|c y].
        -- cbn [app] in E2. subst s.
           exact (Hin_t t [] n1 (eq_sym (app_nil_r t)) Hat).
        -- injection E2 as <- ->. exact (HnoneJ y s n1 eq_refl Hat).
Qed.

(** X13. An invoice number is never pieced together from two attachments:
    the number found in the texts of a message joined by spaces, as [main]
    joins them, is the number of the first text that has one by itself. *)
Theorem invoice_number_of_joined_texts (texts : list str) :
  invoice_number_in (join (py " ") texts)
  = first_known (map invoice_number_in texts).
Proof.
  change (py " ") with [32].
  induction texts as [|t rest IH].
  - vm_compute. reflexivity.
  - assert (Hstep : first_known (map invoice_number_in (t :: rest))
                    = if negb (str_eqb (invoice_number_in t) Unknown)
                      then invoice_number_in t
                      else first_known (map invoice_number_in rest)).
    { unfold first_known. cbn [map filter].
      destruct (negb (str_eqb (invoice_number_in t) Unknown)); reflexivity. }
    rewrite Hstep. destruct rest as [|t2 rest].
    + cbn [join map]. change (first_known []) with Unknown.
      destruct (negb (str_eqb (invoice_number_in t) Unknown)) eqn:E;
        [reflexivity|].
      apply negb_false_iff, str_eqb_eq in E. exact E.
    + change (join [32] (t :: t2 :: rest))
        with (t ++ 32 :: join [32] (t2 :: rest)).
      rewrite invoice_number_in_joined, IH. reflexivity.
Qed.

Lemma paid_has_no_space (x : str) :
  Forall2 same_letter_ignorecase (py "Paid") x -> ~ In 32 x /\ x <> [].
Proof.
  intros H. apply paid_letters in H.
  destruct H as (c1 & c2 & c3 & c4 & -> & H1 & H2 & H3 & H4).
  change (chr "P") with 80 in *. change (chr "p") with 112 in *.
  change (chr "A") with 65 in *. change (chr "a") with 97 in *.
  change (chr "I") with 73 in *. change (chr "i") with 105 in *.
  change (chr "D") with 68 in *. change (chr "d") with 100 in *.
  split; [|discriminate]. cbn [In]. lia.
Qed.

Lemma is_word_space : is_word 32 = false.
Proof. reflexivity. Qed.

(** Paid stands as a word of its own in a text followed by a space and
    more text exactly when it does in the text or in what follows. *)
Lemma standalone_paid_joined (t J : str) :
  standalone same_letter_ignorecase (py "Paid") (t ++ 32 :: J) <->
  standalone same_letter_ignorecase (py "Paid") t \/
  standalone same_letter_ignorecase (py "Paid") J.
Proof.
  unfold standalone, standalone_after. split.
  - intros (pre & x & post & E & Hx & Hp & Hq).
    destruct (paid_has_no_space x Hx) as [Hsp Hne].
    destruct (app_split _ _ _ _ E) as [(y & -> & E2)|(y & -> & E2)].
    + left.
      destruct (prefix_before_separator _ _ _ _ _ E2 Hsp) as (post0 & -> & ->).
      exists pre, x, post0. repeat split; auto.
      destruct post0; [reflexivity | exact Hq].
    + right. destruct y as [|c y].
      * cbn [app] in E2. destruct x as [|c x]; [congruence|].
        injection E2 as <- _. exfalso. apply Hsp. left. reflexivity.
      * injection E2 as <- ->. exists y, x, post. repeat split; auto.
        rewrite last_char_app in Hp.
        destruct y as [|c y]; [reflexivity | exact Hp].
  - intros [(pre & x & post & -> & Hx & Hp & Hq)
           |(pre & x & post & -> & Hx & Hp & Hq)].
    + exists pre, x, (post ++ 32 :: J). rewrite <- !app_assoc.
      repeat split; auto.
      destruct post; [apply is_word_space | exact Hq].
    + exists (t ++ 32 :: pre), x, post. rewrite <- app_assoc.
      repeat split; auto.
      rewrite last_char_app. destruct pre as [|c pre].
      * apply is_word_space.
      * exact Hp.
Qed.

Lemma payment_status_in_paid (text : str) :
  payment_status_in text = py "Paid" <->
  standalone same_letter_ignorecase (py "Paid") text.
Proof.
  unfold payment_status_in.
  destruct (extract_fields text) as (n & a & d & -> & _).
  cbn [payment_status]. unfold standalone.
  rewrite <- (search_paid text 0 None).
  fold (re_search paid_re text true).
  destruct (truthy (re_search paid_re text true)); split; auto; discriminate.
Qed.

(** X14. The texts of a message joined by spaces are [Paid] exactly when
    one of the texts is by itself: the word cannot be pieced together from
    two attachments, nor lost by the joining. *)
Theorem payment_status_of_joined_texts (texts : list str) :
  payment_status_in (join (py " ") texts) = py "Paid" <->
  exists t, In t texts /\ payment_status_in t = py "Paid".
Proof.
  change (py " ") with [32].
  induction texts as [|t rest IH].
  - split; [intros H; vm_compute in H; discriminate | intros (t & [] & _)].
  - destruct rest as [|t2 rest].
    + cbn [join]. split.
      * intros H. exists t. split; [left; reflexivity | exact H].
      * intros (t0 & [<-|[]] & H). exact H.
    + change (join [32] (t :: t2 :: rest))
        with (t ++ 32 :: join [32] (t2 :: rest)).
      rewrite payment_status_in_paid, standalone_paid_joined.
      rewrite <- !payment_status_in_paid, IH. split.
      * intros [H|(t0 & Hin & H)].
        -- exists t. split; [left; reflexivity | exact H].
        -- exists t0. split; [right; exact Hin | exact H].
      * intros (t0 & [<-|Hin] & H); [left; exact H|].
        right. exists t0. auto.
Qed.

End InvoiceExtractor.

(** * The theorems at work *)

(** A stored invoice is seen again: same message, sender and number, and
    with the sender, the amount and a due date that the recurring rule
    would take. *)
Lemma duplicate_takes_precedence_witness :
  has_recurrence_match one_invoice sample /\
  due_date (details sample) <> Unknown /\
  classify one_invoice sample = Some Duplicate.
Proof.
  split; [|split].
  - exists sample. split; [left; reflexivity | split; reflexivity].
  - discriminate.
  - apply duplicate_takes_precedence.
    + reflexivity.
    + exists sample. split; [left; reflexivity | repeat split].
Defined.

(** The same sender and amount a month later is recurring; without a due
    date it is new. *)
Lemma recurring_needs_due_date_witness :
  classify one_invoice sample_undated = Some New /\
  invoices (world_after one_invoice sample_undated)
  = [sample; sample_undated] /\
  classify one_invoice sample_next_month = Some Recurring.
Proof.
  assert (A : answered 2 one_invoice) by reflexivity.
  assert (N1 : ~ has_identity_match one_invoice sample_undated).
  { intros (r & [<-|[]] & E & _). discriminate E. }
  assert (N2 : ~ has_identity_match one_invoice sample_next_month).
  { intros (r & [<-|[]] & E & _). discriminate E. }
  destruct (recurring_needs_due_date one_invoice sample_undated A) as [H _].
  destruct (H eq_refl N1) as [H1 H2].
  destruct (recurring_needs_due_date one_invoice sample_next_month A)
    as [_ [_ H3]].
  split; [exact H1 | split; [exact H2 | apply H3]].
  split; [exact N2 | split].
  - exists sample. split; [left; reflexivity | split; reflexivity].
  - discriminate.
Defined.

(** The server is down at the first lookup of one call, and at the second
    lookup of another. *)
Lemma lookup_failure_propagates_witness :
  (outcome (mkWorld [sample] [] [true]) sample = Raise LookupFailure /\
   classify (mkWorld [sample] [] [true]) sample = None /\
   printed (log (mkWorld [sample] [] [true]) sample) = [] /\
   insertions (log (mkWorld [sample] [] [true]) sample) = [] /\
   invoices (world_after (mkWorld [sample] [] [true]) sample) = [sample] /\
   recurring_invoices (world_after (mkWorld [sample] [] [true]) sample) = [])
  /\
  (outcome (mkWorld [] [] [false; true]) sample = Raise LookupFailure /\
   classify (mkWorld [] [] [false; true]) sample = None /\
   printed (log (mkWorld [] [] [false; true]) sample) = [] /\
   insertions (log (mkWorld [] [] [false; true]) sample) = [] /\
   invoices (world_after (mkWorld [] [] [false; true]) sample) = [] /\
   recurring_invoices (world_after (mkWorld [] [] [false; true]) sample) = []).
Proof.
  split.
  - apply (lookup_failure_propagates (mkWorld [sample] [] [true]) sample 0).
    + apply Nat.lt_0_succ.
    + reflexivity.
  - apply (lookup_failure_propagates (mkWorld [] [] [false; true]) sample 1).
    + apply Nat.lt_succ_diag_r.
    + reflexivity.
Defined.

(** * Where the code departs from the specification *)

(** C5.  With a dotless i the text holds no upper or lower case spelling of
    Paid, and the status is [Paid]. *)
Lemma paid_with_dotless_i :
  extract_invoice_data ascii_only (py "paıd")
  = Ok (mkDetails Unknown Unknown Unknown (py "Paid")) /\
  ~ standalone ascii_only same_letter (py "Paid") (py "paıd").
Proof.
  split; [vm_compute; reflexivity|].
  intros (pre & x & post & E & Hx & _).
  change (py "Paid") with [80; 97; 105; 100] in Hx.
  change (py "paıd") with [112; 97; 305; 100] in E.
  inversion Hx as [|? c1 ? x1 E1 Hx1]; subst; clear Hx.
  inversion Hx1 as [|? c2 ? x2 E2 Hx2]; subst; clear Hx1.
  inversion Hx2 as [|? c3 ? x3 E3 Hx3]; subst; clear Hx2.
  inversion Hx3 as [|? c4 ? x4 E4 Hx4]; subst; clear Hx3.
  inversion Hx4; subst; clear Hx4.
  destruct pre as [|p0 [|p1 [|p2 [|p3 [|p4 pre]]]]]; cbn [app] in E;
    try discriminate.
  injection E as _ _ E _. subst c3. vm_compute in E3. discriminate.
Qed.

(** C6.  After the euro sign a comma, a dot and two digits: the amount is
    neither [Unknown] nor a decimal with grouped thousands. *)
Lemma amount_of_a_lone_comma :
  extract_invoice_data ascii_only (py "€,.00")
  = Ok (mkDetails Unknown (py ",.00") Unknown (py "Unpaid")) /\
  py ",.00" <> Unknown /\
  ~ grouped_decimal (py ",.00").
Proof.
  split; [vm_compute; reflexivity|]. split; [discriminate|].
  intros (g & gs & d1 & d2 & E & HF & _).
  inversion HF as [|? ? [Hg Hd] _]; subst.
  destruct g as [|c g]; [congruence|].
  change (py ",.00") with [44; 46; 48; 48] in E. cbn [app] in E.
  injection E as <- _. cbn [forallb] in Hd.
  change (is_decimal 44) with false in Hd. discriminate.
Qed.

(** C8.  The call that classifies a new record is the call that inserts
    it. *)
Lemma store_in_mongo_inserts :
  classify empty_world sample = Some New /\
  insertions (log empty_world sample) = [(Invoices, sample)] /\
  invoices (world_after empty_world sample) <> invoices empty_world.
Proof.
  split; [reflexivity|]. split; [reflexivity|]. discriminate.
Qed.

(** * The further theorems at work *)

Lemma new_then_duplicate_witness :
  classify (world_after empty_world sample) sample = Some Duplicate /\
  invoices (world_after (world_after empty_world sample) sample) = [sample].
Proof.
  destruct (new_then_duplicate empty_world sample) as (H1 & H2 & _);
    [reflexivity | reflexivity |].
  split; [exact H1 | exact H2].
Defined.






